(** * kubewatch: the flattening transform, the resource registry and the
      delivery policy of [printEvent], embedded from [kubewatch.go]. *)

From Stdlib Require Import ZArith String Ascii List Lia.
From Stdlib Require Import Decimal DecimalNat DecimalN DecimalString.
From Stdlib Require Import SpecFloat.
From stdpp Require Import gmap strings list.

(** ** The two [fmt] verbs the program uses *)

Module Fmt.

(** A Go [float64]: sign, mantissa and binary exponent, or a special value. *)
Abbreviation float64 := spec_float.

(** The [float64] a JSON integer literal decodes to. *)
Definition float64_of_Z (z : Z) : float64 := binary_normalize 53 1024 z 0 false.

(** [fmt.Sprintf("%d", n)] on a non-negative [int]. *)
Definition sprintf_d (n : nat) : string :=
  NilZero.string_of_uint (Nat.to_uint n).

(** Reading back a decimal numeral. *)
Definition parse_d (s : string) : option nat :=
  option_map Nat.of_uint (NilZero.uint_of_string s).

(** Decimal digits of [n], left-padded with zeros to at least [w] digits. *)
Fixpoint zeros (k : nat) : string :=
  match k with
  | O => ""
  | S k' => String "0" (zeros k')
  end.

Definition pad_left (w : nat) (s : string) : string :=
  zeros (w - String.length s) +:+ s.

Definition digits_N (n : N) : string := NilZero.string_of_uint (N.to_uint n).

(** The value [m * 2^e * 10^6] rounded to the nearest integer, ties to even:
    the number of millionths [strconv] keeps for precision 6. *)
Definition millionths (m : positive) (e : Z) : Z :=
  let num := (Z.pos m * 1000000)%Z in
  match e with
  | Z.neg k =>
      let den := Z.pow_pos 2 k in
      let q := (num / den)%Z in
      let r := (num mod den)%Z in
      match (2 * r ?= den)%Z with
      | Gt => (q + 1)%Z
      | Eq => if Z.odd q then (q + 1)%Z else q
      | Lt => q
      end
  | _ => (num * 2 ^ e)%Z
  end.

Definition fixed6 (q : Z) : string :=
  digits_N (Z.to_N (q / 1000000)) +:+ "." +:+
  pad_left 6 (digits_N (Z.to_N (q mod 1000000))).

Definition sign_prefix (neg : bool) : string := if neg then "-" else "".

(** [fmt.Sprintf("%f", x)]: fixed point, six fractional digits. *)
Definition sprintf_f (x : float64) : string :=
  match x with
  | S754_nan => "NaN"
  | S754_infinity false => "+Inf"
  | S754_infinity true => "-Inf"
  | S754_zero s => sign_prefix s +:+ "0.000000"
  | S754_finite s m e => sign_prefix s +:+ fixed6 (millionths m e)
  end.

End Fmt.

Import Fmt.

(** ** The fragment of [reflect.Value] that [flatten] inspects *)

Module Reflect.

(** A map key as [MapKeys] returns it. *)
Inductive Key : Type :=
| KString (s : string)          (* a key of kind String *)
| KOther (ty repr : string)     (* a key of another kind: its type name and
                                   its printed value *)
| KInterface (k : Key).         (* a key of a map keyed by an interface type *)

#[warnings="-register-all"]
Inductive Value : Type :=
| VInvalid                            (* the zero Value *)
| VBool (b : bool)
| VFloat64 (f : float64)
| VString (s : string)
| VSlice (elems : list Value)         (* elements by index *)
| VMap (entries : list (Key * Value)) (* entries in the order in which
                                         MapKeys enumerates them *)
| VPtr (elem : Value)                 (* [VPtr VInvalid] is a nil pointer *)
| VInterface (elem : Value)           (* [VInterface VInvalid] is a nil interface *)
| VOther (kind : string).             (* Int, Struct, Chan, ... *)

(** Induction on values with the hypothesis available for every element of a
    slice and every entry of a map. *)
Section ValueInd.
Variable P : Value → Prop.
Hypothesis Hinvalid : P VInvalid.
Hypothesis Hbool : ∀ b, P (VBool b).
Hypothesis Hfloat : ∀ f, P (VFloat64 f).
Hypothesis Hstring : ∀ s, P (VString s).
Hypothesis Hslice : ∀ elems, Forall P elems → P (VSlice elems).
Hypothesis Hmap : ∀ entries, Forall (λ kx, P (snd kx)) entries → P (VMap entries).
Hypothesis Hptr : ∀ e, P e → P (VPtr e).
Hypothesis Hiface : ∀ e, P e → P (VInterface e).
Hypothesis Hother : ∀ k, P (VOther k).

Fixpoint Value_nested_ind (v : Value) : P v :=
  match v with
  | VInvalid => Hinvalid
  | VBool b => Hbool b
  | VFloat64 f => Hfloat f
  | VString s => Hstring s
  | VSlice elems =>
      Hslice elems
        ((fix go (l : list Value) : Forall P l :=
            match l with
            | [] => List.Forall_nil P
            | x :: l' => @List.Forall_cons _ P x l' (Value_nested_ind x) (go l')
            end) elems)
  | VMap entries =>
      Hmap entries
        ((fix go (l : list (Key * Value)) : Forall (λ kx, P (snd kx)) l :=
            match l with
            | [] => List.Forall_nil _
            | kx :: l' =>
                @List.Forall_cons _ (λ kx, P (snd kx)) kx l'
                  (Value_nested_ind (snd kx)) (go l')
            end) entries)
  | VPtr e => Hptr e (Value_nested_ind e)
  | VInterface e => Hiface e (Value_nested_ind e)
  | VOther k => Hother k
  end.
End ValueInd.

(** [v.Elem()] as [flatten] guards it: only pointers and interfaces are
    dereferenced. *)
Definition Elem (v : Value) : Value :=
  match v with
  | VPtr e | VInterface e => e
  | _ => v
  end.

Definition KeyElem (k : Key) : Key :=
  match k with
  | KInterface k' => k'
  | _ => k
  end.

Definition KeyIsString (k : Key) : bool :=
  match k with
  | KString _ => true
  | _ => false
  end.

(** [k.String()]: the string itself for kind String, ["<T Value>"] for a
    key of type [T]. *)
Definition KeyString (k : Key) : string :=
  match k with
  | KString s => s
  | KOther ty _ => "<" +:+ ty +:+ " Value>"
  | KInterface _ => "<interface {} Value>"
  end.

End Reflect.

Import Reflect.

(** ** flatten *)

Module Flatten.

(** What the logger receives. *)
Inductive LogEntry : Type :=
| LogError (msg : string)
| LogMapKeyNotString (p : string) (k : Key) (* Errorf("%s: map key is not string: %s", p, k) *)
| LogFatal (err : string).

(** The record [r] being filled (only strings are ever stored in it) and the
    lines logged so far. *)
Record St : Type := mkSt { rec : gmap string string; logged : list LogEntry }.

Definition store (key val : string) (st : St) : St :=
  mkSt (<[key := val]> (rec st)) (logged st).

Definition log (e : LogEntry) (st : St) : St :=
  mkSt (rec st) (logged st ++ [e]).

(** [p[:len(p)-1]]; [None] is the run-time panic on an empty [p]. *)
Definition chop (p : string) : option string :=
  match String.length p with
  | O => None
  | S n => Some (substring 0 n p)
  end.

Definition flattenBool (b : bool) (p : string) (st : St) : option St :=
  key ← chop p;
  Some (if b then store key "true" st else store key "false" st).

Definition flattenFloat64 (f : float64) (p : string) (st : St) : option St :=
  key ← chop p; Some (store key (sprintf_f f) st).

Definition flattenString (s : string) (p : string) (st : St) : option St :=
  key ← chop p; Some (store key s st).

(** The bodies of [flattenMap] and [flattenSlice], over the function they call
    for each entry and element, so that [flatten] below is a structural
    recursion. *)
Section Loops.
Variable flatten : St → string → Value → option St.

Fixpoint flattenMap_body (entries : list (Key * Value)) (p : string) (st : St)
  : option St :=
  match entries with
  | [] => Some st
  | (k, x) :: rest =>
      let k := KeyElem k in
      let st := if KeyIsString k then st else log (LogMapKeyNotString p k) st in
      st' ← flatten st (p +:+ KeyString k) x;
      flattenMap_body rest p st'
  end.

Fixpoint flattenSlice_from (i : nat) (elems : list Value) (p : string) (st : St)
  : option St :=
  match elems with
  | [] => Some st
  | x :: rest =>
      st' ← flatten st (p +:+ sprintf_d i) x;
      flattenSlice_from (S i) rest p st'
  end.

Definition flattenSlice_body (elems : list Value) (p : string) (st : St)
  : option St :=
  flattenSlice_from 0 elems p (store (p +:+ "#") (sprintf_d (length elems)) st).
End Loops.

(** The first statement of [flatten]: a non-empty prefix gets the separator. *)
Definition addSep (p : string) : string :=
  if String.eqb p "" then p else p +:+ "_".

Fixpoint flatten (st : St) (p : string) (v : Value) {struct v} : option St :=
  let p := addSep p in
  match Elem v with
  | VInvalid => Some st
  | VBool b => flattenBool b p st
  | VFloat64 f => flattenFloat64 f p st
  | VMap entries => flattenMap_body flatten entries p st
  | VSlice elems => flattenSlice_body flatten elems p st
  | VString s => flattenString s p st
  | VPtr _ | VInterface _ | VOther _ => Some (log (LogError ("Unknown: " +:+ p)) st)
  end.

(** [flattenMap(v, p, r)] and [flattenSlice(v, p, r)]. *)
Definition flattenMap : list (Key * Value) → string → St → option St :=
  flattenMap_body flatten.

Definition flattenSlice : list Value → string → St → option St :=
  flattenSlice_body flatten.

Definition st0 : St := mkSt ∅ [].

End Flatten.

Import Flatten.

(** ** Decoded JSON documents *)

Module Json.

(** What [json.Unmarshal] stores in an [interface{}]. *)
#[warnings="-register-all"]
Inductive JSON : Type :=
| JNull
| JBool (b : bool)
| JNumber (f : float64)
| JString (s : string)
| JArray (elems : list JSON)
| JObject (fields : list (string * JSON)). (* in iteration order *)

(** The dynamic value of a decoded document; elements of decoded arrays and
    objects are of interface type, and [null] is the nil interface. *)
Fixpoint dynamic (j : JSON) : Value :=
  match j with
  | JNull => VInvalid
  | JBool b => VBool b
  | JNumber f => VFloat64 f
  | JString s => VString s
  | JArray elems => VSlice (map (λ x, VInterface (dynamic x)) elems)
  | JObject fields =>
      VMap (map (λ kv, (KString (fst kv), VInterface (dynamic (snd kv)))) fields)
  end.

(** [reflect.ValueOf(dat)] for [dat] of type [strIfce]. *)
Definition ValueOf (dat : list (string * JSON)) : Value := dynamic (JObject dat).

Definition number (z : Z) : JSON := JNumber (float64_of_Z z).

End Json.

Import Json.

(** ** Leaves of a value and their path keys *)

Module Paths.

(** [root_s1_s2_..._sn] for the path [s1; ...; sn]. *)
Fixpoint joinPath (path : list string) : string :=
  match path with
  | [] => ""
  | s :: path' => "_" +:+ s +:+ joinPath path'
  end.

Definition pathKey (root : string) (path : list string) : string :=
  root +:+ joinPath path.

Definition under (step : string) (leaf : list string * string)
  : list string * string :=
  (step :: fst leaf, snd leaf).

Section Loops.
Variable leaves : Value → list (list string * string).

Fixpoint leavesMap (entries : list (Key * Value)) : list (list string * string) :=
  match entries with
  | [] => []
  | (k, x) :: rest =>
      map (under (KeyString (KeyElem k))) (leaves x) ++ leavesMap rest
  end.

Fixpoint leavesSlice_from (i : nat) (elems : list Value)
  : list (list string * string) :=
  match elems with
  | [] => []
  | x :: rest =>
      map (under (sprintf_d i)) (leaves x) ++ leavesSlice_from (S i) rest
  end.
End Loops.

(** Every scalar reached, and the length entry of every sequence, with the
    chain of field names, indices and ["#"] leading to it and the string it
    is rendered as, in traversal order. *)
Fixpoint leaves (v : Value) : list (list string * string) :=
  match Elem v with
  | VBool b => [([], if b then "true" else "false")]
  | VFloat64 f => [([], sprintf_f f)]
  | VString s => [([], s)]
  | VSlice elems =>
      (["#"], sprintf_d (length elems)) :: leavesSlice_from leaves 0 elems
  | VMap entries => leavesMap leaves entries
  | _ => []
  end.

Definition noUnderscore (s : string) : bool :=
  forallb (λ c, negb (Ascii.eqb c "_")) (list_ascii_of_string s).

Definition keyPlain (k : Key) : bool :=
  match KeyElem k with
  | KString s => noUnderscore s
  | _ => false
  end.

(** Every map of the value has string keys without underscore, pairwise
    different. *)
Fixpoint plainKeys (v : Value) : bool :=
  match v with
  | VSlice elems => forallb plainKeys elems
  | VMap entries =>
      bool_decide (NoDup (map (λ kx, KeyString (KeyElem (fst kx))) entries))
      && forallb (λ kx, keyPlain (fst kx) && plainKeys (snd kx)) entries
  | VPtr e | VInterface e => plainKeys e
  | _ => true
  end.

(** The string a boolean, number or string leaf is rendered as; [None] for
    every other value. *)
Definition scalarString (v : Value) : option string :=
  match Elem v with
  | VBool b => Some (if b then "true" else "false")
  | VFloat64 f => Some (sprintf_f f)
  | VString s => Some s
  | _ => None
  end.

(** The record holding one entry per leaf, written in traversal order. *)
Definition recordOf (root : string) (ls : list (list string * string))
  (r : gmap string string) : gmap string string :=
  foldl (λ r leaf, <[pathKey root (fst leaf) := snd leaf]> r) r ls.

(** flatten returns, having written the leaves of [v] under their path keys. *)
Definition flattens_to_leaves (v : Value) : Prop :=
  ∀ st p, p ≠ "" →
    ∃ lg, flatten st p v
          = Some (mkSt (recordOf p (leaves v) (rec st)) (logged st ++ lg)).

Definition plainStep (s : string) : Prop := noUnderscore s = true.

(** Empty, or beginning with the separator: the shape of [joinPath]. *)
Definition sepLed (t : string) : Prop := t = "" ∨ ∃ t', t = String "_" t'.

(** What the induction on values carries: the paths of the leaves are
    pairwise different and made of steps without underscore. *)
Definition goodLeaves (ls : list (list string * string)) : Prop :=
  NoDup (map fst ls) ∧ ∀ leaf, leaf ∈ ls → Forall plainStep (fst leaf).

Definition leavesGood (v : Value) : Prop :=
  plainKeys v = true → goodLeaves (leaves v).

End Paths.

Import Paths.

(** ** The worked example of the specification *)

Module Example.

(** [{"a": {"b": true, "c": [1,2]}}], its inner fields in a given order. *)
Definition inner : list (string * JSON) :=
  [("b", JBool true); ("c", JArray [number 1; number 2])].

Definition document (fields : list (string * JSON)) : list (string * JSON) :=
  [("a", JObject fields)].

(** The record the specification announces for it. *)
Definition expected : gmap string string :=
  list_to_map [("root_a_b", "true"); ("root_a_c#", "2");
               ("root_a_c0", "1"); ("root_a_c1", "2")].

Definition actual : gmap string string :=
  list_to_map [("root_a_b", "true"); ("root_a_c_#", "2");
               ("root_a_c_0", "1.000000"); ("root_a_c_1", "2.000000")].

End Example.

(** ** Values flatten emits nothing for *)

Module Anomaly.

(** The zero Value, a nil pointer or a nil interface ([null] in a decoded
    document). *)
Definition isNull (v : Value) : bool :=
  match Elem v with
  | VInvalid => true
  | _ => false
  end.

(** A valid value of a kind the switch of [flatten] has no case for. *)
Definition isUnknown (v : Value) : bool :=
  match Elem v with
  | VPtr _ | VInterface _ | VOther _ => true
  | _ => false
  end.

(** The state after flatten has met such a value at prefix [p]. *)
Definition skipped (p : string) (v : Value) (st : St) : St :=
  if isNull v then st else log (LogError ("Unknown: " +:+ addSep p)) st.

End Anomaly.

(** ** One invocation of flatten, as a relation *)

Module Run.
Import Anomaly.

(** [flatten_run st p v out]: the call [flatten(r, p, v)], entered with the
    record and the log of [st], ends in [out]: [Some st'] when it returns
    with the record and the log of [st'], [None] when it panics.  The loops
    of [flattenMap] and [flattenSlice] stop at the first panic. *)
Inductive flatten_run : St → string → Value → option St → Prop :=
| run_invalid st p v :
    Elem v = VInvalid →
    flatten_run st p v (Some st)
| run_bool st p v b :
    Elem v = VBool b →
    flatten_run st p v (flattenBool b (addSep p) st)
| run_float64 st p v f :
    Elem v = VFloat64 f →
    flatten_run st p v (flattenFloat64 f (addSep p) st)
| run_map st p v entries out :
    Elem v = VMap entries →
    flattenMap_run st (addSep p) entries out →
    flatten_run st p v out
| run_slice st p v elems out :
    Elem v = VSlice elems →
    flattenSlice_run
      (store (addSep p +:+ "#") (sprintf_d (length elems)) st)
      (addSep p) 0 elems out →
    flatten_run st p v out
| run_string st p v s :
    Elem v = VString s →
    flatten_run st p v (flattenString s (addSep p) st)
| run_unknown st p v :
    isUnknown v = true →
    flatten_run st p v (Some (log (LogError ("Unknown: " +:+ addSep p)) st))
with flattenMap_run : St → string → list (Key * Value) → option St → Prop :=
| map_done st p :
    flattenMap_run st p [] (Some st)
| map_panic st p k x rest :
    flatten_run
      (if KeyIsString (KeyElem k) then st
       else log (LogMapKeyNotString p (KeyElem k)) st)
      (p +:+ KeyString (KeyElem k)) x None →
    flattenMap_run st p ((k, x) :: rest) None
| map_next st p k x rest st' out :
    flatten_run
      (if KeyIsString (KeyElem k) then st
       else log (LogMapKeyNotString p (KeyElem k)) st)
      (p +:+ KeyString (KeyElem k)) x (Some st') →
    flattenMap_run st' p rest out →
    flattenMap_run st p ((k, x) :: rest) out
with flattenSlice_run : St → string → nat → list Value → option St → Prop :=
| slice_done st p i :
    flattenSlice_run st p i [] (Some st)
| slice_panic st p i x rest :
    flatten_run st (p +:+ sprintf_d i) x None →
    flattenSlice_run st p i (x :: rest) None
| slice_next st p i x rest st' out :
    flatten_run st (p +:+ sprintf_d i) x (Some st') →
    flattenSlice_run st' p (S i) rest out →
    flattenSlice_run st p i (x :: rest) out.

Scheme flatten_run_min := Minimality for flatten_run Sort Prop
  with flattenMap_run_min := Minimality for flattenMap_run Sort Prop
  with flattenSlice_run_min := Minimality for flattenSlice_run Sort Prop.

End Run.

(** ** A document with two leaves on one key *)

Module Collision.

(** [{"a": {"b": true}, "a_b": false}] *)
Definition document : list (string * JSON) :=
  [("a", JObject [("b", JBool true)]); ("a_b", JBool false)].

End Collision.

(** ** The resource registry and the choice of the REST client *)

Module Registry.

Definition resources : list string :=
  [ "configMaps"; "endpoints"; "events"; "limitranges";
    "persistentvolumeclaims"; "persistentvolumes"; "pods"; "podtemplates";
    "replicationcontrollers"; "resourcequotas"; "secrets"; "serviceaccounts";
    "services"; "deployments"; "horizontalpodautoscalers"; "ingresses"; "jobs" ].

(** The prototypes [&v1.ConfigMap{}], ..., [&v1beta1.Job{}]. *)
Inductive RuntimeObject : Type :=
| v1_ConfigMap | v1_Endpoints | v1_Event | v1_LimitRange
| v1_PersistentVolumeClaim | v1_PersistentVolume | v1_Pod | v1_PodTemplate
| v1_ReplicationController | v1_ResourceQuota | v1_Secret
| v1_ServiceAccount | v1_Service
| v1beta1_Deployment | v1beta1_HorizontalPodAutoscaler | v1beta1_Ingress
| v1beta1_Job.

(** [runtimeObject] is an interface: [None] is nil. *)
Record verObj : Type :=
  mkVerObj { apiVersion : string; runtimeObject : option RuntimeObject }.

Definition resourceObject : gmap string verObj :=
  list_to_map
    [ ("configMaps", mkVerObj "v1" (Some v1_ConfigMap));
      ("endpoints", mkVerObj "v1" (Some v1_Endpoints));
      ("events", mkVerObj "v1" (Some v1_Event));
      ("limitranges", mkVerObj "v1" (Some v1_LimitRange));
      ("persistentvolumeclaims", mkVerObj "v1" (Some v1_PersistentVolumeClaim));
      ("persistentvolumes", mkVerObj "v1" (Some v1_PersistentVolume));
      ("pods", mkVerObj "v1" (Some v1_Pod));
      ("podtemplates", mkVerObj "v1" (Some v1_PodTemplate));
      ("replicationcontrollers", mkVerObj "v1" (Some v1_ReplicationController));
      ("resourcequotas", mkVerObj "v1" (Some v1_ResourceQuota));
      ("secrets", mkVerObj "v1" (Some v1_Secret));
      ("serviceaccounts", mkVerObj "v1" (Some v1_ServiceAccount));
      ("services", mkVerObj "v1" (Some v1_Service));
      ("deployments", mkVerObj "v1beta1" (Some v1beta1_Deployment));
      ("horizontalpodautoscalers",
        mkVerObj "v1beta1" (Some v1beta1_HorizontalPodAutoscaler));
      ("ingresses", mkVerObj "v1beta1" (Some v1beta1_Ingress));
      ("jobs", mkVerObj "v1beta1" (Some v1beta1_Job)) ].

(** [resourceObject[resource]]: the zero [verObj] for an absent name. *)
Definition resourceObject_at (resource : string) : verObj :=
  default (mkVerObj "" None) (resourceObject !! resource).

(** The two REST clients of a clientset. *)
Inductive RESTClient : Type :=
| CoreRESTClient
| ExtensionsRESTClient.

(** The [client] variable of [watchResource] after the switch on the API
    version; [None] is the nil interface it is declared with. *)
Definition watchResource_client (resource : string) : option RESTClient :=
  let v := apiVersion (resourceObject_at resource) in
  if String.eqb v "v1" then Some CoreRESTClient
  else if String.eqb v "v1beta1" then Some ExtensionsRESTClient
  else None.

(** [Enums(resources...)]: the names the argument parser lets through. *)
Definition accepted (resource : string) : bool :=
  bool_decide (resource ∈ resources).

End Registry.

(** ** printEvent *)

Module Sink.

Inductive Result (A : Type) : Type :=
| Ok (a : A)
| Err (e : string).
Arguments Ok {A} a.
Arguments Err {A} e.

(** The [hec.Event] that [printEvent] builds. *)
Record Event : Type :=
  mkEvent { body : string; host : string; index : string;
            source : string; sourcetype : string }.

(** What a call does to the outside, in order. *)
Inductive Effect : Type :=
| Logged (e : LogEntry)
| Printed (line : string) (res : Result nat) (* fmt.Printf, with what it returned *)
| Sent (e : Event).                          (* splunkClient.WriteEvent *)

Inductive Outcome : Type :=
| Returned
| Exited (code : Z)
| Panicked.

Definition nl : string := String "010"%char "".

Section PrintEvent.
Context {Obj : Type}.
Variable flgFlatten : bool.
Variables splunkHost splunkIndex splunkSource splunkSourceType : string.
Variable Marshal : Obj → Result string.
Variable Unmarshal : string → Result (list (string * JSON)).
Variable MarshalRecord : gmap string string → Result string.
Variable Printf : string → Result nat.
Variable WriteEvent : Event → Result unit.

(** From "Print to stdout" on. *)
Definition deliver (jsn : string) : list Effect * Outcome :=
  let printed := Printed (jsn +:+ nl) (Printf (jsn +:+ nl)) in
  let event :=
    mkEvent jsn splunkHost splunkIndex splunkSource splunkSourceType in
  match WriteEvent event with
  | Err e => ([printed; Sent event; Logged (LogFatal e)], Exited 1)
  | Ok _ => ([printed; Sent event], Returned)
  end.

Definition printEvent (obj : Obj) : list Effect * Outcome :=
  match Marshal obj with
  | Err _ => ([Logged (LogError "Ops! Cannot marshal JSON")], Returned)
  | Ok jsn =>
      if flgFlatten then
        match Unmarshal jsn with
        | Err _ => ([Logged (LogError "Ops! Cannot unmarshal JSON")], Returned)
        | Ok dat =>
            match flatten st0 "kubewatch" (ValueOf dat) with
            | None => ([], Panicked)
            | Some st =>
                let logs := map Logged (logged st) in
                match MarshalRecord (rec st) with
                | Err _ =>
                    (logs ++ [Logged (LogError "Ops! Cannot marshal JSON")],
                     Returned)
                | Ok jsn' =>
                    (logs ++ fst (deliver jsn'), snd (deliver jsn'))
                end
            end
        end
      else deliver jsn
  end.
End PrintEvent.

(** The payload could not be rendered: one of the three conversions of
    [printEvent] returned an error. *)
Definition encodingFails {Obj : Type} (flgFlatten : bool)
  (Marshal : Obj → Result string)
  (Unmarshal : string → Result (list (string * JSON)))
  (MarshalRecord : gmap string string → Result string) (obj : Obj) : Prop :=
  (∃ e, Marshal obj = Err e)
  ∨ (flgFlatten = true
     ∧ ∃ jsn, Marshal obj = Ok jsn
         ∧ ((∃ e, Unmarshal jsn = Err e)
            ∨ ∃ dat st e, Unmarshal jsn = Ok dat
                ∧ flatten st0 "kubewatch" (ValueOf dat) = Some st
                ∧ MarshalRecord (rec st) = Err e)).

Definition isPrinted (e : Effect) : bool :=
  match e with Printed _ _ => true | _ => false end.

Definition isSent (e : Effect) : bool :=
  match e with Sent _ => true | _ => false end.

(** Nothing written to the console, nothing sent to the collector. *)
Definition quiet (t : list Effect) : Prop :=
  Forall (λ eff, isPrinted eff = false ∧ isSent eff = false) t.

End Sink.

Import Sink.

(** ** A concrete setting for printEvent *)

Module Scenario.

(** Payloads are booleans: [true] marshals to an empty object, [false] cannot
    be marshalled.  The console write fails and the collector refuses every
    event. *)
Definition marshal (obj : bool) : Result string :=
  if obj then Ok "{}" else Err "json: unsupported type".

Definition unmarshal (jsn : string) : Result (list (string * JSON)) := Ok [].

Definition marshalRecord (r : gmap string string) : Result string := Ok "{}".

Definition brokenConsole (line : string) : Result nat := Err "write: broken pipe".

Definition refusing (ev : Event) : Result unit := Err "503 Service Unavailable".

Definition sentEvent : Event := mkEvent "{}" "node1" "main" "kubewatch" "json".

Definition handle (flat : bool) : bool → list Effect * Outcome :=
  printEvent flat "node1" "main" "kubewatch" "json"
    marshal unmarshal marshalRecord brokenConsole refusing.

End Scenario.

(** ** Induction on decoded documents *)

Module JsonInd.

Section JSONInd.
Variable P : JSON → Prop.
Hypothesis Hnull : P JNull.
Hypothesis Hbool : ∀ b, P (JBool b).
Hypothesis Hnumber : ∀ f, P (JNumber f).
Hypothesis Hstring : ∀ s, P (JString s).
Hypothesis Harray : ∀ elems, Forall P elems → P (JArray elems).
Hypothesis Hobject : ∀ fields, Forall (λ kj, P (snd kj)) fields → P (JObject fields).

Fixpoint JSON_nested_ind (j : JSON) : P j :=
  match j with
  | JNull => Hnull
  | JBool b => Hbool b
  | JNumber f => Hnumber f
  | JString s => Hstring s
  | JArray elems =>
      Harray elems
        ((fix go (l : list JSON) : Forall P l :=
            match l with
            | [] => List.Forall_nil P
            | x :: l' => @List.Forall_cons _ P x l' (JSON_nested_ind x) (go l')
            end) elems)
  | JObject fields =>
      Hobject fields
        ((fix go (l : list (string * JSON)) : Forall (λ kj, P (snd kj)) l :=
            match l with
            | [] => List.Forall_nil _
            | kj :: l' =>
                @List.Forall_cons _ (λ kj, P (snd kj)) kj l'
                  (JSON_nested_ind (snd kj)) (go l')
            end) fields)
  end.
End JSONInd.

End JsonInd.

(** ** The empty prefix, and the same document in another key order *)

Module Edge.

(** With the empty prefix, [flatten] reaches [p[:len(p)-1]] on an empty [p]
    at a boolean, number or string, and below a map only through keys that are
    themselves empty strings. *)
Fixpoint panicsAtEmpty (v : Value) : bool :=
  match Elem v with
  | VBool _ | VFloat64 _ | VString _ => true
  | VMap entries =>
      existsb (λ kx, String.eqb (KeyString (KeyElem (fst kx))) ""
                     && panicsAtEmpty (snd kx)) entries
  | _ => false
  end.

Section Pairwise.
Variable same : Value → Value → Prop.

Fixpoint sameElems (l l' : list Value) : Prop :=
  match l, l' with
  | [], [] => True
  | x :: l, y :: l' => same x y ∧ sameElems l l'
  | _, _ => False
  end.

Fixpoint sameEntries (m m' : list (Key * Value)) : Prop :=
  match m, m' with
  | [], [] => True
  | (k, x) :: m, (k', y) :: m' => k = k' ∧ same x y ∧ sameEntries m m'
  | _, _ => False
  end.
End Pairwise.

(** [reordered v w]: [w] is the value [v] with the entries of its maps, at
    any depth, enumerated in another order; slices keep their order. *)
Fixpoint reordered (v w : Value) {struct v} : Prop :=
  match v with
  | VSlice l =>
      match w with
      | VSlice l' => sameElems reordered l l'
      | _ => False
      end
  | VMap m =>
      match w with
      | VMap m' => ∃ m'', sameEntries reordered m m'' ∧ m'' ≡ₚ m'
      | _ => False
      end
  | VPtr e =>
      match w with
      | VPtr e' => reordered e e'
      | _ => False
      end
  | VInterface e =>
      match w with
      | VInterface e' => reordered e e'
      | _ => False
      end
  | _ => v = w
  end.

(** flatten returns with the log it was entered with. *)
Definition silent (v : Value) : Prop :=
  ∀ st p, p ≠ "" → ∃ r', flatten st p v = Some (mkSt r' (logged st)).

(** The float is the integer [n], up to its sign. *)
Definition integral (f : float64) (n : N) : Prop :=
  match f with
  | S754_zero _ => n = 0%N
  | S754_finite _ m (Z.neg k) => Z.pos m = (Z.of_N n * Z.pow_pos 2 k)%Z
  | S754_finite _ m e => Z.of_N n = (Z.pos m * 2 ^ e)%Z
  | _ => False
  end.

Definition isNegative (f : float64) : bool :=
  match f with
  | S754_zero s | S754_infinity s | S754_finite s _ _ => s
  | S754_nan => false
  end.

End Edge.

(** ** kubeconfigPath and buildConfig *)

Module Config.

(** Which constructor of the client configuration [buildConfig] calls. *)
Inductive ConfigSource : Type :=
| OutOfCluster (file : string) (* clientcmd.BuildConfigFromFlags("", file) *)
| InCluster.                   (* rest.InClusterConfig() *)

(** The line [buildConfig] logs at level Info. *)
Inductive InfoLine : Type :=
| InfoOutOfCluster (file : string) (* "Running out-of-cluster using kubeconfig", field file *)
| InfoInCluster.                   (* "Running in-cluster using environment variables" *)

(** [HOME] is [os.Getenv("HOME")]; [statOk path] tells whether [os.Stat(path)]
    returns a nil error. *)
Definition kubeconfigPath (HOME : string) (statOk : string → bool) : string :=
  if statOk (HOME +:+ "/.kube/config") then HOME +:+ "/.kube/config" else ".".

Definition buildConfig (kubeconfig : string) : InfoLine * ConfigSource :=
  if negb (String.eqb kubeconfig "") && negb (String.eqb kubeconfig ".")
  then (InfoOutOfCluster kubeconfig, OutOfCluster kubeconfig)
  else (InfoInCluster, InCluster).

End Config.

(** ** watchResource and main *)

Module Watcher.
Import Registry Config Sink.

(** The handler the informer is given. *)
Inductive Handler : Type :=
| PrintEvent.

(** What [watchResource] sets up: the list-watch (its client, resource and
    namespace, and the namespace its replaced [ListFunc] lists), and the
    arguments of [cache.NewInformer]. *)
Record Informer : Type :=
  mkInformer { client : option RESTClient;
               resource : string;
               namespace : string;
               listNamespace : string;
               objType : option RuntimeObject;
               resyncSeconds : nat;
               AddFunc : option Handler;
               UpdateFunc : option Handler;
               DeleteFunc : option Handler }.

Definition watchResource (resource namespace : string) : Informer :=
  mkInformer (watchResource_client resource) resource namespace "none"
    (runtimeObject (resourceObject_at resource)) 0
    (Some PrintEvent) None (Some PrintEvent).

(** The REST client that serves the API group of a prototype: the package
    [v1] is the core API, [v1beta1] the extensions API. *)
Definition clientOf (o : RuntimeObject) : RESTClient :=
  match o with
  | v1beta1_Deployment | v1beta1_HorizontalPodAutoscaler
  | v1beta1_Ingress | v1beta1_Job => ExtensionsRESTClient
  | _ => CoreRESTClient
  end.

Inductive MainOutcome : Type :=
| MainPanic (msg : string)                (* panic(err.Error()) *)
| MainBlocked (started : list Informer).  (* select {} *)

Section Main.
Context {RestConfig Clientset : Type}.
Variable BuildConfigFromFlags : string → Result RestConfig.
Variable InClusterConfig : Result RestConfig.
Variable NewForConfig : RestConfig → Result Clientset.

(** [buildConfig] with the library call it ends in. *)
Definition buildConfig_call (kubeconfig : string) : Result RestConfig :=
  match snd (buildConfig kubeconfig) with
  | OutOfCluster file => BuildConfigFromFlags file
  | InCluster => InClusterConfig
  end.

(** [main] after the command line has been parsed: the main goroutine, up
    to [select {}].  What the controllers do in their own goroutines once
    started is not part of it. *)
Definition main (flgKubeconfig flgNamespace : string)
  (argResources : list string) : MainOutcome :=
  match buildConfig_call flgKubeconfig with
  | Err e => MainPanic e
  | Ok config =>
      match NewForConfig config with
      | Err e => MainPanic e
      | Ok _ =>
          MainBlocked (map (λ r, watchResource r flgNamespace) argResources)
      end
  end.
End Main.

End Watcher.

(** ** printEvent before the collector was added (kubewatch.go) *)

Module Original.
Import Sink.

Definition printEvent {Obj : Type} (Marshal : Obj → Result string)
  (Printf : string → Result nat) (obj : Obj) : list Effect :=
  match Marshal obj with
  | Ok jsn => [Printed (jsn +:+ nl) (Printf (jsn +:+ nl))]
  | Err _ => []
  end.

End Original.

(** * Properties *)

(** ** Flattening the worked example *)

Module ExampleFacts.
Import Example.

(** C1 as stated fails: the record flatten returns for the document is not
    the one with keys [root_a_c#], [root_a_c0], [root_a_c1] and values
    ["1"], ["2"]. *)
Lemma flatten_example_not_expected :
  ¬ ∃ st, flatten st0 "root" (ValueOf (document inner)) = Some st
          ∧ rec st = expected.
Proof.
  intros (st & Hrun & Hrec).
  vm_compute in Hrun. injection Hrun as <-.
  apply (f_equal (λ r : gmap string string, r !! "root_a_c#")) in Hrec.
  vm_compute in Hrec. discriminate Hrec.
Qed.

(** C1, amended: for the document [{"a": {"b": true, "c": [1,2]}}] and root
    prefix ["root"], in whatever order the inner object is enumerated,
    flatten returns exactly the record with [root_a_b = "true"],
    [root_a_c_# = "2"], [root_a_c_0 = "1.000000"] and
    [root_a_c_1 = "2.000000"], and logs nothing. *)
Theorem flatten_example (fields : list (string * JSON)) :
  fields ≡ₚ inner →
  flatten st0 "root" (ValueOf (document fields)) = Some (mkSt actual []).
Proof.
  intros Hperm. unfold inner in Hperm. symmetry in Hperm.
  apply Permutation_length_2_inv in Hperm as [-> | ->];
    vm_compute; reflexivity.
Qed.

Lemma flatten_example_witness :
  [("c", JArray [number 1; number 2]); ("b", JBool true)] ≡ₚ inner
  ∧ flatten st0 "root"
      (ValueOf (document [("c", JArray [number 1; number 2]); ("b", JBool true)]))
    = Some (mkSt actual []).
Proof.
  split; [apply perm_swap|].
  apply flatten_example. apply perm_swap.
Defined.

End ExampleFacts.

(** ** Strings *)

Module StringFacts.

Lemma append_cons (a : ascii) (s t : string) :
  String a s +:+ t = String a (s +:+ t).
Proof. reflexivity. Qed.

Lemma append_nil_r (s : string) : s +:+ "" = s.
Proof. induction s as [|a s IH]; [reflexivity|]. rewrite append_cons, IH. reflexivity. Qed.

Lemma append_assoc (s t u : string) : (s +:+ t) +:+ u = s +:+ t +:+ u.
Proof.
  induction s as [|a s IH]; [reflexivity|].
  rewrite !append_cons, IH. reflexivity.
Qed.

Lemma append_nonempty (s t : string) : s ≠ "" → s +:+ t ≠ "".
Proof. destruct s; [congruence|]. rewrite append_cons. discriminate. Qed.

Lemma length_append (s t : string) :
  String.length (s +:+ t) = String.length s + String.length t.
Proof.
  induction s as [|a s IH]; [reflexivity|].
  rewrite append_cons. simpl. rewrite IH. reflexivity.
Qed.

Lemma substring_append (s t : string) :
  substring 0 (String.length s) (s +:+ t) = s.
Proof.
  induction s as [|a s IH].
  - destruct t; reflexivity.
  - rewrite append_cons. simpl. rewrite IH. reflexivity.
Qed.

End StringFacts.

(** ** The decimal rendering of indices and lengths *)

Module FmtFacts.

Lemma sprintf_d_parse (n : nat) : parse_d (sprintf_d n) = Some n.
Proof.
  unfold parse_d, sprintf_d.
  destruct (Nat.to_uint n) as [| | | | | | | | | |] eqn:E;
    try (rewrite NilZero.usu by discriminate; cbn [option_map];
         rewrite <- E, DecimalNat.Unsigned.of_to; reflexivity).
  apply (f_equal Nat.of_uint) in E.
  rewrite DecimalNat.Unsigned.of_to in E. subst n. reflexivity.
Qed.

Lemma sprintf_d_inj (n m : nat) : sprintf_d n = sprintf_d m → n = m.
Proof.
  intros E. apply (f_equal parse_d) in E.
  rewrite !sprintf_d_parse in E. congruence.
Qed.

Lemma sprintf_d_not_hash (n : nat) : sprintf_d n ≠ "#".
Proof.
  intros E. apply (f_equal parse_d) in E.
  rewrite sprintf_d_parse in E. discriminate E.
Qed.

Lemma digits_noUnderscore (d : Decimal.uint) :
  noUnderscore (NilEmpty.string_of_uint d) = true.
Proof. induction d; cbn; auto. Qed.

Lemma sprintf_d_noUnderscore (n : nat) : noUnderscore (sprintf_d n) = true.
Proof.
  unfold sprintf_d, NilZero.string_of_uint.
  destruct (Nat.to_uint n) eqn:E; [reflexivity|..];
    rewrite <- E; apply digits_noUnderscore.
Qed.

End FmtFacts.

(** ** flatten in terms of the leaves of its argument *)

Module FlattenFacts.
Import StringFacts.

Lemma chop_sep (p : string) : chop (p +:+ "_") = Some p.
Proof.
  unfold chop. rewrite length_append, Nat.add_comm. simpl.
  rewrite substring_append. reflexivity.
Qed.

Lemma addSep_nonempty (p : string) : p ≠ "" → addSep p = p +:+ "_".
Proof.
  intros Hp. unfold addSep. destruct (String.eqb_spec p ""); congruence.
Qed.

Lemma pathKey_nil (p : string) : pathKey p [] = p.
Proof. apply append_nil_r. Qed.

Lemma pathKey_cons (p s : string) (path : list string) :
  pathKey p (s :: path) = pathKey ((p +:+ "_") +:+ s) path.
Proof. unfold pathKey. simpl. rewrite !append_assoc. reflexivity. Qed.

Lemma recordOf_app root ls1 ls2 (r : gmap string string) :
  recordOf root (ls1 ++ ls2) r = recordOf root ls2 (recordOf root ls1 r).
Proof. unfold recordOf. apply foldl_app. Qed.

Lemma recordOf_under root s ls (r : gmap string string) :
  recordOf root (map (under s) ls) r = recordOf ((root +:+ "_") +:+ s) ls r.
Proof.
  revert r. induction ls as [|leaf ls IH]; intros r; [reflexivity|].
  cbn [map]. unfold recordOf in *. cbn [foldl].
  rewrite IH. unfold under at 1 2. cbn [fst snd].
  rewrite pathKey_cons. reflexivity.
Qed.

Lemma st_eta (st : St) : st = mkSt (rec st) (logged st ++ []).
Proof. destruct st. cbn. rewrite app_nil_r. reflexivity. Qed.

Lemma sep_append_nonempty (p s : string) : (p +:+ "_") +:+ s ≠ "".
Proof. destruct p; discriminate. Qed.

Lemma flattenMap_leaves entries :
  Forall (λ kx, flattens_to_leaves (snd kx)) entries →
  ∀ st p, ∃ lg,
    flattenMap_body flatten entries (p +:+ "_") st
    = Some (mkSt (recordOf p (leavesMap leaves entries) (rec st))
              (logged st ++ lg)).
Proof.
  induction 1 as [|[k x] rest Hx _ IH]; intros st p.
  - exists []. cbn. f_equal. apply st_eta.
  - cbn [flattenMap_body leavesMap]. cbn [snd] in Hx.
    set (st1 := if KeyIsString (KeyElem k) then st else _).
    assert (∃ lg0, rec st1 = rec st ∧ logged st1 = logged st ++ lg0)
      as (lg0 & Hrec & Hlog).
    { subst st1. destruct (KeyIsString (KeyElem k)).
      - exists []. by rewrite app_nil_r.
      - eexists. split; reflexivity. }
    destruct (Hx st1 ((p +:+ "_") +:+ KeyString (KeyElem k))
                (sep_append_nonempty _ _)) as [lg1 ->].
    cbn [mbind option_bind].
    destruct (IH (mkSt (recordOf ((p +:+ "_") +:+ KeyString (KeyElem k))
                          (leaves x) (rec st1)) (logged st1 ++ lg1)) p)
      as [lg2 ->].
    exists (lg0 ++ lg1 ++ lg2). cbn [rec logged]. f_equal.
    rewrite recordOf_app, recordOf_under, Hrec, Hlog, <- !app_assoc.
    reflexivity.
Qed.

Lemma flattenSlice_leaves elems :
  Forall flattens_to_leaves elems →
  ∀ i st p, ∃ lg,
    flattenSlice_from flatten i elems (p +:+ "_") st
    = Some (mkSt (recordOf p (leavesSlice_from leaves i elems) (rec st))
              (logged st ++ lg)).
Proof.
  induction 1 as [|x rest Hx _ IH]; intros i st p.
  - exists []. cbn. f_equal. apply st_eta.
  - cbn [flattenSlice_from leavesSlice_from].
    destruct (Hx st ((p +:+ "_") +:+ sprintf_d i) (sep_append_nonempty _ _))
      as [lg1 ->].
    cbn [mbind option_bind].
    destruct (IH (S i) (mkSt (recordOf ((p +:+ "_") +:+ sprintf_d i)
                                (leaves x) (rec st)) (logged st ++ lg1)) p)
      as [lg2 ->].
    exists (lg1 ++ lg2). cbn [rec logged]. f_equal.
    rewrite recordOf_app, recordOf_under, <- !app_assoc. reflexivity.
Qed.

Lemma flatten_scalar st p val :
  p ≠ "" →
  (key ← chop (addSep p); Some (store key val st))
  = Some (mkSt (recordOf p [([], val)] (rec st)) (logged st ++ [])).
Proof.
  intros Hp. rewrite addSep_nonempty, chop_sep by done.
  cbn. rewrite pathKey_nil, app_nil_r. reflexivity.
Qed.

Lemma flatten_unknown_leaves st p :
  ∃ lg, Some (log (LogError ("Unknown: " +:+ addSep p)) st)
        = Some (mkSt (recordOf p [] (rec st)) (logged st ++ lg)).
Proof. eexists. reflexivity. Qed.

Lemma flatten_leaves (v : Value) : flattens_to_leaves v.
Proof.
  induction v as [| b | f | s | elems IH | entries IH | e IH | e IH | k]
    using Value_nested_ind; intros st p Hp.
  - exists []. cbn. f_equal. apply st_eta.
  - exists []. cbn [flatten leaves Elem]. unfold flattenBool.
    destruct b; apply flatten_scalar, Hp.
  - exists []. apply flatten_scalar, Hp.
  - exists []. apply flatten_scalar, Hp.
  - cbn [flatten leaves Elem]. unfold flattenSlice_body.
    rewrite addSep_nonempty by done.
    destruct (flattenSlice_leaves elems IH 0
                (store ((p +:+ "_") +:+ "#") (sprintf_d (length elems)) st) p)
      as [lg ->].
    exists lg. cbn [rec logged store]. f_equal. f_equal.
    unfold recordOf at 2. cbn [foldl fst snd].
    rewrite pathKey_cons, pathKey_nil. reflexivity.
  - cbn [flatten leaves Elem]. rewrite addSep_nonempty by done.
    apply flattenMap_leaves, IH.
  - destruct e; try exact (IH st p Hp); apply flatten_unknown_leaves.
  - destruct e; try exact (IH st p Hp); apply flatten_unknown_leaves.
  - apply flatten_unknown_leaves.
Qed.

End FlattenFacts.

(** ** Sequences *)

Module SliceFacts.
Import StringFacts FmtFacts FlattenFacts.

(** C2 as stated fails: for the one-element sequence [[true]] at prefix
    ["root"], flatten writes [root_#] and [root_0]; the keys [root#] and
    [root0] (prefix followed by ["#"] or by the index without separator)
    are absent from the record. *)
Lemma flatten_slice_no_bare_suffix :
  ∃ st, flatten st0 "root" (VSlice [VBool true]) = Some st
        ∧ rec st = {[ "root_#" := "1"; "root_0" := "true" ]}
        ∧ rec st !! ("root" +:+ "#") = None
        ∧ rec st !! ("root" +:+ sprintf_d 0) = None.
Proof. eexists. repeat split; vm_compute; reflexivity. Qed.

Lemma foldl_visit_None (q : string) (l : list (nat * Value)) :
  foldl (λ acc ix, acc ≫= λ st, flatten st (q +:+ sprintf_d (fst ix)) (snd ix))
    None l = None.
Proof. induction l as [|ix l IH]; [reflexivity|]. cbn. exact IH. Qed.

Lemma flattenSlice_from_foldl (q : string) (elems : list Value) :
  ∀ i st,
    flattenSlice_from flatten i elems q st
    = foldl (λ acc ix, acc ≫= λ st, flatten st (q +:+ sprintf_d (fst ix)) (snd ix))
        (Some st) (zip (seq i (length elems)) elems).
Proof.
  induction elems as [|x rest IH]; intros i st; [reflexivity|].
  cbn [flattenSlice_from length seq zip zip_with foldl fst snd].
  cbn [mbind option_bind].
  destruct (flatten st (q +:+ sprintf_d i) x) as [st'|]; cbn [mbind option_bind].
  - apply IH.
  - symmetry. apply foldl_visit_None.
Qed.

Lemma flatten_scalar_value (st : St) (q val : string) (x : Value) :
  q ≠ "" → scalarString x = Some val →
  flatten st q x = Some (store q val st).
Proof.
  intros Hq Hx.
  assert (∀ v, (key ← chop (addSep q); Some (store key v st))
               = Some (store q v st)) as Hstore.
  { intros v. rewrite addSep_nonempty, chop_sep by done. reflexivity. }
  destruct x as [| b | f | s | | | e | e |]; try discriminate Hx;
    try (destruct e as [| b | f | s | | | | |]; try discriminate Hx);
    cbn in Hx; injection Hx as <-;
    cbn [flatten Elem]; unfold flattenBool, flattenFloat64, flattenString;
    try destruct b; apply Hstore.
Qed.

Lemma child_key_inj (q : string) (i j : nat) :
  q +:+ sprintf_d i = q +:+ sprintf_d j → i = j.
Proof. intros E. apply (inj (String.append q)) in E. by apply sprintf_d_inj. Qed.

Lemma flattenSlice_from_scalars (P : string) (elems : list Value) :
  Forall (λ x, is_Some (scalarString x)) elems →
  ∀ i st, ∃ st',
    flattenSlice_from flatten i elems (P +:+ "_") st = Some st'
    ∧ logged st' = logged st
    ∧ (∀ j x, elems !! j = Some x →
         rec st' !! ((P +:+ "_") +:+ sprintf_d (i + j)) = scalarString x)
    ∧ (∀ k, (∀ j, j < length elems → k ≠ (P +:+ "_") +:+ sprintf_d (i + j)) →
         rec st' !! k = rec st !! k).
Proof.
  induction 1 as [|x rest [val Hx] _ IH]; intros i st.
  - exists st. split; [reflexivity|]. split; [reflexivity|].
    split; [intros j x Hj; discriminate Hj | done].
  - cbn [flattenSlice_from].
    rewrite (flatten_scalar_value st _ val x (sep_append_nonempty _ _) Hx).
    cbn [mbind option_bind].
    destruct (IH (S i) (store ((P +:+ "_") +:+ sprintf_d i) val st))
      as (st' & -> & Hlog & Hin & Hout).
    exists st'. split; [reflexivity|]. split; [exact Hlog|]. split.
    + intros [|j] y Hy.
      * cbn in Hy. injection Hy as <-. rewrite Nat.add_0_r, Hout.
        { cbn. rewrite lookup_insert_eq. by rewrite Hx. }
        intros j _ E. apply child_key_inj in E. lia.
      * cbn in Hy. rewrite <- Nat.add_succ_comm. by apply Hin.
    + intros k Hk. rewrite Hout.
      * cbn. rewrite lookup_insert_ne; [done|].
        specialize (Hk 0). rewrite Nat.add_0_r in Hk.
        intros E. apply Hk; [cbn; lia | done].
      * intros j Hj. rewrite Nat.add_succ_comm. apply Hk. cbn. lia.
Qed.

(** C2, amended: at a non-empty prefix [P], flatten hands a sequence of
    length [N] to [flattenSlice] with the prefix [P_]; [flattenSlice], given a
    prefix [q], first writes the key [q#] with the decimal string of [N] and
    then flattens the elements in index order, element [i] with prefix [qi].
    So the length is under [P_#] and element [i] is flattened with prefix
    [P_i], the index joined to [P] by an underscore.  When every element is a
    boolean, number or string, nothing is logged, the resulting record holds
    [P_#] and, for each [i < N], the key [P_i] with the rendering of element
    [i]; these [N] child keys are pairwise different and different from
    [P_#], and every other key is as before. *)
Theorem flatten_slice (st : St) (P : string) (elems : list Value) :
  P ≠ "" →
  let N := length elems in
  flatten st P (VSlice elems) = flattenSlice elems (P +:+ "_") st
  ∧ (∀ q,
       flattenSlice elems q st
       = foldl (λ acc ix, acc ≫= λ st,
                  flatten st (q +:+ sprintf_d (fst ix)) (snd ix))
           (Some (store (q +:+ "#") (sprintf_d N) st)) (zip (seq 0 N) elems))
  ∧ (Forall (λ x, is_Some (scalarString x)) elems →
     ∃ st', flatten st P (VSlice elems) = Some st'
       ∧ logged st' = logged st
       ∧ rec st' !! (P +:+ "_#") = Some (sprintf_d N)
       ∧ (∀ i x, elems !! i = Some x →
            rec st' !! (P +:+ "_" +:+ sprintf_d i) = scalarString x)
       ∧ (∀ k, k ≠ P +:+ "_#" →
            (∀ i, i < N → k ≠ P +:+ "_" +:+ sprintf_d i) →
            rec st' !! k = rec st !! k)
       ∧ NoDup (map (λ i, P +:+ "_" +:+ sprintf_d i) (seq 0 N))
       ∧ ∀ i, P +:+ "_" +:+ sprintf_d i ≠ P +:+ "_#").
Proof.
  intros HP N.
  assert (flatten st P (VSlice elems) = flattenSlice elems (P +:+ "_") st)
    as Hcall.
  { cbn [flatten Elem]. by rewrite addSep_nonempty. }
  assert (flattenSlice elems (P +:+ "_") st
          = flattenSlice_from flatten 0 elems (P +:+ "_")
              (store (P +:+ "_#") (sprintf_d N) st)) as Hrun.
  { unfold flattenSlice, flattenSlice_body. by rewrite append_assoc. }
  assert (∀ i, P +:+ "_" +:+ sprintf_d i ≠ P +:+ "_#") as Hhash.
  { intros i E. apply (inj (String.append P)) in E.
    apply (inj (String.append "_")) in E. by apply sprintf_d_not_hash in E. }
  split; [exact Hcall|]. split.
  - intros q. apply flattenSlice_from_foldl.
  - intros Hsc. rewrite Hcall, Hrun.
    destruct (flattenSlice_from_scalars P elems Hsc 0
                (store (P +:+ "_#") (sprintf_d N) st))
      as (st' & -> & Hlog & Hin & Hout).
    exists st'. split; [reflexivity|]. split; [exact Hlog|].
    split; [|split; [|split; [|split]]].
    + rewrite Hout.
      * cbn. by rewrite lookup_insert_eq.
      * intros j _ E. rewrite append_assoc in E. symmetry in E.
        by apply Hhash in E.
    + intros i x Hx. rewrite <- append_assoc. by apply (Hin i x).
    + intros k Hk1 Hk2. rewrite Hout.
      * cbn. by rewrite lookup_insert_ne.
      * intros j Hj. rewrite append_assoc. by apply Hk2.
    + apply NoDup_fmap_2_strong; [|apply NoDup_seq].
      intros i j _ _ E. rewrite <- !append_assoc in E.
      by apply child_key_inj in E.
    + exact Hhash.
Qed.

Lemma flatten_slice_witness :
  "root" ≠ ""
  ∧ ∃ st', flatten st0 "root" (VSlice [VBool true; VString "x"]) = Some st'
      ∧ rec st' !! "root_#" = Some "2"
      ∧ rec st' !! "root_1" = Some "x".
Proof.
  split; [discriminate|].
  destruct (flatten_slice st0 "root" [VBool true; VString "x"]) as (_ & _ & H);
    [discriminate|].
  destruct H as (st' & Hrun & _ & Hlen & Hin & _).
  { repeat constructor; eexists; reflexivity. }
  exists st'. split; [exact Hrun|]. split; [exact Hlen|].
  exact (Hin 1 (VString "x") eq_refl).
Defined.

End SliceFacts.

(** ** Path keys of documents whose field names have no underscore *)

Module PathFacts.
Import StringFacts FmtFacts FlattenFacts.

(** C3 as stated fails: in [{"a": {"b": true}, "a_b": false}] the leaves at
    the two different paths [a, b] and [a_b] get the same key [root_a_b], and
    the record flatten returns holds a single entry, the first one having
    been overwritten by the second. *)
Lemma flatten_key_collision :
  leaves (ValueOf Collision.document)
  = [(["a"; "b"], "true"); (["a_b"], "false")]
  ∧ pathKey "root" ["a"; "b"] = pathKey "root" ["a_b"]
  ∧ flatten st0 "root" (ValueOf Collision.document)
    = Some (mkSt {[ "root_a_b" := "false" ]} []).
Proof. repeat split; vm_compute; reflexivity. Qed.

Lemma sep_cons (t : string) : "_" +:+ t = String "_" t.
Proof. reflexivity. Qed.

Lemma joinPath_sepLed (path : list string) : sepLed (joinPath path).
Proof. destruct path; [by left | right; cbn [joinPath]; rewrite sep_cons; eauto]. Qed.

Lemma plainStep_cons (a : ascii) (s : string) :
  plainStep (String a s) ↔ a ≠ "_"%char ∧ plainStep s.
Proof.
  unfold plainStep, noUnderscore. cbn [list_ascii_of_string forallb].
  rewrite andb_true_iff, negb_true_iff. 
  destruct (Ascii.eqb_spec a "_"); intuition congruence.
Qed.

Lemma plain_prefix_inj (s1 s2 t1 t2 : string) :
  plainStep s1 → plainStep s2 → sepLed t1 → sepLed t2 →
  s1 +:+ t1 = s2 +:+ t2 → s1 = s2 ∧ t1 = t2.
Proof.
  revert s2. induction s1 as [|a s1 IH]; intros [|c s2] H1 H2 Ht1 Ht2 E.
  - done.
  - apply plainStep_cons in H2 as [Hc _]. rewrite append_cons in E.
    destruct Ht1 as [-> | [t' ->]]; [discriminate E|]. 
    cbn in E. injection E as E _. congruence.
  - apply plainStep_cons in H1 as [Ha _]. rewrite append_cons in E.
    destruct Ht2 as [-> | [t' ->]]; [discriminate E|]. 
    cbn in E. injection E as E _. congruence.
  - rewrite !append_cons in E. injection E as -> E.
    apply plainStep_cons in H1 as [_ H1]. apply plainStep_cons in H2 as [_ H2].
    destruct (IH s2 H1 H2 Ht1 Ht2 E) as [-> ->]. done.
Qed.

Lemma joinPath_inj (path1 path2 : list string) :
  Forall plainStep path1 → Forall plainStep path2 →
  joinPath path1 = joinPath path2 → path1 = path2.
Proof.
  intros H1. revert path2.
  induction H1 as [|s1 r1 Hs1 _ IH]; intros path2 H2 E;
    destruct H2 as [|s2 r2 Hs2 Hr2]; [done|discriminate E|discriminate E|].
  cbn [joinPath] in E. rewrite !sep_cons in E. injection E as E.
  apply plain_prefix_inj in E as [-> E]; auto using joinPath_sepLed.
  f_equal. by apply IH.
Qed.

Lemma pathKey_inj (root : string) (path1 path2 : list string) :
  Forall plainStep path1 → Forall plainStep path2 →
  pathKey root path1 = pathKey root path2 → path1 = path2.
Proof.
  intros H1 H2 E. apply (inj (String.append root)) in E.
  by apply joinPath_inj.
Qed.

Lemma goodLeaves_nil : goodLeaves [].
Proof. split; [constructor | intros leaf H; by apply elem_of_nil in H]. Qed.

Lemma goodLeaves_scalar (val : string) : goodLeaves [([], val)].
Proof.
  split; [apply NoDup_singleton|].
  intros leaf ->%list_elem_of_singleton. constructor.
Qed.

(** Leaves below one step [s], followed by leaves [ls2] whose first step is
    always different from [s]. *)
Lemma goodLeaves_under_app (s : string) ls1 ls2 :
  plainStep s → goodLeaves ls1 → goodLeaves ls2 →
  (∀ leaf, leaf ∈ ls2 → ∃ s' path, fst leaf = s' :: path ∧ s' ≠ s) →
  goodLeaves (map (under s) ls1 ++ ls2).
Proof.
  intros Hs [Hnd1 Hpl1] [Hnd2 Hpl2] Hhead. split.
  - rewrite map_app. apply NoDup_app. split; [|split; [|exact Hnd2]].
    + rewrite map_map. cbn [under fst].
      change (NoDup (map (λ x, s :: fst x) ls1)).
      rewrite <- (map_map fst (cons s)).
      apply (NoDup_fmap_2 (cons s)), Hnd1.
    + intros path Hin1 Hin2.
      apply list_elem_of_fmap in Hin1 as (l1 & -> & Hl1).
      apply list_elem_of_fmap in Hl1 as (l0 & -> & _).
      apply list_elem_of_fmap in Hin2 as (l2 & E & Hl2).
      destruct (Hhead l2 Hl2) as (s' & path' & E' & Hne).
      cbn [under fst] in E. rewrite E' in E. congruence.
  - intros leaf [Hin | Hin]%elem_of_app; [|by apply Hpl2].
    apply list_elem_of_fmap in Hin as (l0 & -> & Hl0).
    cbn [under fst]. constructor; [exact Hs | by apply Hpl1].
Qed.

Lemma leavesSlice_good (elems : list Value) :
  Forall leavesGood elems → forallb plainKeys elems = true →
  ∀ i, goodLeaves (leavesSlice_from leaves i elems)
       ∧ ∀ leaf, leaf ∈ leavesSlice_from leaves i elems →
           ∃ j path, fst leaf = sprintf_d j :: path ∧ i ≤ j.
Proof.
  induction 1 as [|x rest Hx _ IH]; intros Hpl i.
  - split; [apply goodLeaves_nil | intros leaf H; by apply elem_of_nil in H].
  - cbn [forallb] in Hpl. apply andb_true_iff in Hpl as [Hplx Hplr].
    destruct (IH Hplr (S i)) as [Hgood Hheads].
    cbn [leavesSlice_from]. split.
    + apply goodLeaves_under_app;
        [apply sprintf_d_noUnderscore | by apply Hx | exact Hgood |].
      intros leaf Hin. destruct (Hheads leaf Hin) as (j & path & E & Hj).
      exists (sprintf_d j), path. split; [exact E|].
      intros E'%sprintf_d_inj. lia.
    + intros leaf [Hin | Hin]%elem_of_app.
      * apply list_elem_of_fmap in Hin as (l0 & -> & _).
        exists i, (fst l0). split; [reflexivity | lia].
      * destruct (Hheads leaf Hin) as (j & path & E & Hj).
        exists j, path. split; [exact E | lia].
Qed.

Lemma leavesMap_good (entries : list (Key * Value)) :
  Forall (λ kx, leavesGood (snd kx)) entries →
  NoDup (map (λ kx, KeyString (KeyElem (fst kx))) entries) →
  forallb (λ kx, keyPlain (fst kx) && plainKeys (snd kx)) entries = true →
  goodLeaves (leavesMap leaves entries)
  ∧ ∀ leaf, leaf ∈ leavesMap leaves entries →
      ∃ path kx, fst leaf = KeyString (KeyElem (fst kx)) :: path ∧ kx ∈ entries.
Proof.
  induction 1 as [|[k x] rest Hx _ IH]; intros Hnd Hpl.
  - split; [apply goodLeaves_nil | intros leaf H; by apply elem_of_nil in H].
  - cbn [forallb fst snd] in Hpl.
    apply andb_true_iff in Hpl as [[Hk Hplx]%andb_true_iff Hplr].
    cbn [map fst] in Hnd. apply NoDup_cons in Hnd as [Hfresh Hnd].
    destruct (IH Hnd Hplr) as [Hgood Hheads].
    cbn [leavesMap]. split.
    + apply goodLeaves_under_app; [| by apply Hx | exact Hgood |].
      * unfold keyPlain in Hk. unfold plainStep.
        destruct (KeyElem k); try discriminate Hk. exact Hk.
      * intros leaf Hin. destruct (Hheads leaf Hin) as (path & kx & E & Hkx).
        exists (KeyString (KeyElem (fst kx))), path. split; [exact E|].
        intros E'. apply Hfresh. rewrite <- E'.
        apply list_elem_of_fmap. exists kx. done.
    + intros leaf [Hin | Hin]%elem_of_app.
      * apply list_elem_of_fmap in Hin as (l0 & -> & _).
        exists (fst l0), (k, x). split; [reflexivity | apply elem_of_cons; by left].
      * destruct (Hheads leaf Hin) as (path & kx & E & Hkx).
        exists path, kx. split; [exact E | apply elem_of_cons; by right].
Qed.

Lemma leaves_good (v : Value) : leavesGood v.
Proof.
  induction v as [| b | f | s | elems IH | entries IH | e IH | e IH | k]
    using Value_nested_ind; intros Hpl.
  - apply goodLeaves_nil.
  - apply goodLeaves_scalar.
  - apply goodLeaves_scalar.
  - apply goodLeaves_scalar.
  - cbn [plainKeys] in Hpl. cbn [leaves Elem].
    destruct (leavesSlice_good elems IH Hpl 0) as [Hgood Hheads].
    change (goodLeaves (map (under "#") [([], sprintf_d (length elems))]
                          ++ leavesSlice_from leaves 0 elems)).
    apply goodLeaves_under_app;
      [reflexivity | apply goodLeaves_scalar | exact Hgood |].
    intros leaf Hin. destruct (Hheads leaf Hin) as (j & path & E & _).
    exists (sprintf_d j), path. split; [exact E | apply sprintf_d_not_hash].
  - cbn [plainKeys] in Hpl. apply andb_true_iff in Hpl as [Hnd Hpl].
    apply bool_decide_eq_true in Hnd.
    cbn [leaves Elem]. by apply leavesMap_good.
  - destruct e; try exact (IH Hpl); apply goodLeaves_nil.
  - destruct e; try exact (IH Hpl); apply goodLeaves_nil.
  - apply goodLeaves_nil.
Qed.

Lemma leaves_keys_NoDup (root : string) (v : Value) :
  plainKeys v = true →
  NoDup (map (λ leaf, pathKey root (fst leaf)) (leaves v)).
Proof.
  intros Hpl. destruct (leaves_good v Hpl) as [Hnd Hplain].
  rewrite <- (map_map fst (pathKey root)).
  apply NoDup_fmap_2_strong; [|exact Hnd].
  intros path1 path2 H1 H2.
  apply list_elem_of_fmap in H1 as (l1 & -> & Hl1).
  apply list_elem_of_fmap in H2 as (l2 & -> & Hl2).
  apply pathKey_inj; auto.
Qed.

Lemma recordOf_snoc root ls leaf (r : gmap string string) :
  recordOf root (ls ++ [leaf]) r
  = <[pathKey root (fst leaf) := snd leaf]> (recordOf root ls r).
Proof. unfold recordOf. by rewrite foldl_snoc. Qed.

Lemma recordOf_lookup root ls (r : gmap string string) leaf :
  NoDup (map (λ leaf, pathKey root (fst leaf)) ls) → leaf ∈ ls →
  recordOf root ls r !! pathKey root (fst leaf) = Some (snd leaf).
Proof.
  induction ls as [|last ls IH] using rev_ind; intros Hnd Hin.
  - by apply elem_of_nil in Hin.
  - rewrite map_app in Hnd. apply NoDup_app in Hnd as (Hnd & Hfresh & _).
    rewrite recordOf_snoc.
    apply elem_of_app in Hin as [Hin | ->%list_elem_of_singleton].
    + rewrite lookup_insert_ne; [by apply IH|].
      intros E. apply (Hfresh (pathKey root (fst leaf))).
      * apply list_elem_of_fmap. by exists leaf.
      * cbn [map]. rewrite <- E. apply list_elem_of_singleton. reflexivity.
    + apply lookup_insert_eq.
Qed.

Lemma recordOf_size root ls :
  NoDup (map (λ leaf, pathKey root (fst leaf)) ls) →
  size (recordOf root ls ∅) = length ls.
Proof.
  induction ls as [|last ls IH] using rev_ind; intros Hnd; [done|].
  rewrite map_app in Hnd. apply NoDup_app in Hnd as (Hnd & Hfresh & _).
  rewrite recordOf_snoc, length_app, Nat.add_comm. cbn [length Nat.add].
  rewrite map_size_insert_None; [by rewrite IH|].
  destruct (recordOf root ls ∅ !! pathKey root (fst last)) as [val|] eqn:E;
    [|reflexivity].
  exfalso. apply (Hfresh (pathKey root (fst last)));
    [|apply list_elem_of_singleton; reflexivity].
  clear -E. induction ls as [|l ls IH] using rev_ind.
  - discriminate E.
  - rewrite recordOf_snoc in E. rewrite map_app. apply elem_of_app.
    destruct (decide (pathKey root (fst l) = pathKey root (fst last))) as [Heq|Hne].
    + right. cbn [map]. rewrite Heq. apply list_elem_of_singleton. reflexivity.
    + left. rewrite lookup_insert_ne in E by done. by apply IH.
Qed.

(** C3, amended: when every mapping of the document has string keys without
    underscore (pairwise different, as the keys of a map are) and the root
    prefix is not empty, the leaves of the document get pairwise different
    keys: flatten returns a record in which every leaf is found under its own
    path key with its own value, none having been overwritten, and, started
    on the empty record, the record has as many entries as the document has
    leaves. *)
Theorem flatten_keys_distinct (st : St) (root : string) (v : Value) :
  root ≠ "" → plainKeys v = true →
  NoDup (map (λ leaf, pathKey root (fst leaf)) (leaves v))
  ∧ ∃ st', flatten st root v = Some st'
      ∧ (∀ leaf, leaf ∈ leaves v →
           rec st' !! pathKey root (fst leaf) = Some (snd leaf))
      ∧ (rec st = ∅ → size (rec st') = length (leaves v)).
Proof.
  intros Hroot Hpl. pose proof (leaves_keys_NoDup root v Hpl) as Hnd.
  split; [exact Hnd|].
  destruct (flatten_leaves v st root Hroot) as [lg Hrun].
  eexists. split; [exact Hrun|]. cbn [rec]. split.
  - intros leaf Hin. by apply recordOf_lookup.
  - intros ->. by apply recordOf_size.
Qed.

Lemma flatten_keys_distinct_witness :
  "root" ≠ ""
  ∧ plainKeys (ValueOf (Example.document Example.inner)) = true
  ∧ ∃ st', flatten st0 "root" (ValueOf (Example.document Example.inner)) = Some st'
      ∧ size (rec st') = 4.
Proof.
  split; [discriminate|]. split; [reflexivity|].
  destruct (flatten_keys_distinct st0 "root"
              (ValueOf (Example.document Example.inner)))
    as (_ & st' & Hrun & _ & Hsize); [discriminate | reflexivity |].
  exists st'. split; [exact Hrun | exact (Hsize eq_refl)].
Defined.

End PathFacts.

(** ** Keys that are not strings; null and unknown values *)

Module AnomalyFacts.
Import Anomaly.


(** C5 as stated fails: flattening [{"x": null}] logs nothing. *)
Lemma flatten_null_not_logged :
  flatten st0 "root" (ValueOf [("x", JNull)]) = Some st0
  ∧ logged st0 = [].
Proof. split; reflexivity. Qed.

(** C5, amended: a null value is passed over silently and a value of an
    unknown kind is logged as ["Unknown: "] followed by its prefix; in both
    cases the record is left as it was, and the loops of [flattenSlice] and
    [flattenMap] go on with the following elements and entries. *)
Theorem flatten_null_or_unknown (st : St) (p : string) (v : Value) :
  isNull v || isUnknown v = true →
  flatten st p v = Some (skipped p v st)
  ∧ rec (skipped p v st) = rec st
  ∧ logged (skipped p v st)
    = logged st ++ (if isNull v then []
                    else [LogError ("Unknown: " +:+ addSep p)])
  ∧ (∀ i rest q,
       flattenSlice_from flatten i (v :: rest) q st
       = flattenSlice_from flatten (S i) rest q
           (skipped (q +:+ sprintf_d i) v st))
  ∧ (∀ k rest q,
       flattenMap ((KString k, v) :: rest) q st
       = flattenMap rest q (skipped (q +:+ k) v st)).
Proof.
  intros Hv.
  assert (∀ st p, flatten st p v = Some (skipped p v st)) as Hrun.
  { intros st1 p1. unfold skipped, isNull, isUnknown in *.
    destruct v as [| | | | | | e | e |]; try discriminate Hv;
      try destruct e; try discriminate Hv; reflexivity. }
  split; [apply Hrun|]. split; [|split; [|split]].
  - unfold skipped. by destruct (isNull v).
  - unfold skipped. destruct (isNull v); [|reflexivity].
    by rewrite app_nil_r.
  - intros i rest q. cbn [flattenSlice_from]. by rewrite Hrun.
  - intros k rest q. unfold flattenMap.
    cbn [flattenMap_body KeyElem KeyIsString KeyString]. by rewrite Hrun.
Qed.

Lemma flatten_null_or_unknown_witness :
  isNull (VInterface VInvalid) || isUnknown (VInterface VInvalid) = true
  ∧ flatten st0 "root" (VInterface VInvalid) = Some st0
  ∧ isNull (VOther "int") || isUnknown (VOther "int") = true
  ∧ flatten st0 "root" (VOther "int")
    = Some (mkSt ∅ [LogError "Unknown: root_"]).
Proof.
  split; [reflexivity|]. split.
  - apply (flatten_null_or_unknown st0 "root" (VInterface VInvalid)).
    reflexivity.
  - split; [reflexivity|].
    apply (flatten_null_or_unknown st0 "root" (VOther "int")). reflexivity.
Defined.

End AnomalyFacts.

(** ** Determinism *)

Module DeterminismFacts.
Import Run.

(** The same document enumerated in two orders can give two different
    records: the order of the keys is part of what a run depends on. *)
Lemma flatten_order_matters :
  ∃ st1 st2,
    flatten st0 "root" (ValueOf Collision.document) = Some st1
    ∧ flatten st0 "root" (ValueOf (reverse Collision.document)) = Some st2
    ∧ rec st1 ≠ rec st2.
Proof.
  do 2 eexists. split; [vm_compute; reflexivity|].
  split; [vm_compute; reflexivity|].
  intros E. apply (f_equal (λ r : gmap string string, r !! "root_a_b")) in E.
  vm_compute in E. discriminate E.
Qed.

Lemma flatten_unfold (st : St) (p : string) (v : Value) :
  flatten st p v
  = match Elem v with
    | VInvalid => Some st
    | VBool b => flattenBool b (addSep p) st
    | VFloat64 f => flattenFloat64 f (addSep p) st
    | VMap entries => flattenMap_body flatten entries (addSep p) st
    | VSlice elems => flattenSlice_body flatten elems (addSep p) st
    | VString s => flattenString s (addSep p) st
    | VPtr _ | VInterface _ | VOther _ =>
        Some (log (LogError ("Unknown: " +:+ addSep p)) st)
    end.
Proof. destruct v; reflexivity. Qed.

(** What a run ends in is what the function computes. *)
Lemma flatten_run_sound (st : St) (p : string) (v : Value) (out : option St) :
  flatten_run st p v out → out = flatten st p v.
Proof.
  revert st p v out.
  apply (flatten_run_min
           (λ st p v out, out = flatten st p v)
           (λ st p entries out, out = flattenMap_body flatten entries p st)
           (λ st p i elems out, out = flattenSlice_from flatten i elems p st)).
  - intros st p v E. by rewrite flatten_unfold, E.
  - intros st p v b E. by rewrite flatten_unfold, E.
  - intros st p v f E. by rewrite flatten_unfold, E.
  - intros st p v entries out E _ ->. by rewrite flatten_unfold, E.
  - intros st p v elems out E _ ->. by rewrite flatten_unfold, E.
  - intros st p v s E. by rewrite flatten_unfold, E.
  - intros st p v Hu. rewrite flatten_unfold. unfold Anomaly.isUnknown in Hu.
    by destruct (Elem v).
  - reflexivity.
  - intros st p k x rest _ E. cbn [flattenMap_body]. by rewrite <- E.
  - intros st p k x rest st' out _ E _ ->. cbn [flattenMap_body].
    by rewrite <- E.
  - reflexivity.
  - intros st p i x rest _ E. cbn [flattenSlice_from]. by rewrite <- E.
  - intros st p i x rest st' out _ E _ ->. cbn [flattenSlice_from].
    by rewrite <- E.
Qed.

Lemma flatten_run_Elem (st : St) (p : string) (v v' : Value) (out : option St) :
  Elem v = Elem v' → flatten_run st p v' out → flatten_run st p v out.
Proof.
  intros E Hrun.
  destruct Hrun as [st p v' E' | st p v' b E' | st p v' f E'
                   | st p v' entries out E' Hm | st p v' elems out E' Hs
                   | st p v' s E' | st p v' Hu].
  - apply run_invalid. congruence.
  - apply run_bool. congruence.
  - apply run_float64. congruence.
  - eapply run_map; [rewrite E; exact E' | exact Hm].
  - eapply run_slice; [rewrite E; exact E' | exact Hs].
  - apply run_string. congruence.
  - apply run_unknown. unfold Anomaly.isUnknown in *. by rewrite E.
Qed.

Lemma flattenMap_run_complete (entries : list (Key * Value)) :
  Forall (λ kx, ∀ st p, flatten_run st p (snd kx) (flatten st p (snd kx)))
    entries →
  ∀ st p, flattenMap_run st p entries (flattenMap_body flatten entries p st).
Proof.
  induction 1 as [|[k x] rest Hx _ IH]; intros st p; [constructor|].
  cbn [flattenMap_body].
  set (st1 := if KeyIsString (KeyElem k) then st else _).
  specialize (Hx st1 (p +:+ KeyString (KeyElem k))). cbn [snd] in Hx.
  destruct (flatten st1 (p +:+ KeyString (KeyElem k)) x) as [st'|] eqn:E.
  - eapply map_next; [exact Hx | apply IH].
  - by apply map_panic.
Qed.

Lemma flattenSlice_run_complete (elems : list Value) :
  Forall (λ x, ∀ st p, flatten_run st p x (flatten st p x)) elems →
  ∀ st p i,
    flattenSlice_run st p i elems (flattenSlice_from flatten i elems p st).
Proof.
  induction 1 as [|x rest Hx _ IH]; intros st p i; [constructor|].
  cbn [flattenSlice_from].
  specialize (Hx st (p +:+ sprintf_d i)).
  destruct (flatten st (p +:+ sprintf_d i) x) as [st'|] eqn:E.
  - eapply slice_next; [exact Hx | apply IH].
  - by apply slice_panic.
Qed.

(** Every call has a run, the one the function computes. *)
Lemma flatten_run_complete (v : Value) :
  ∀ st p, flatten_run st p v (flatten st p v).
Proof.
  induction v as [| b | f | s | elems IH | entries IH | e IH | e IH | k]
    using Value_nested_ind; intros st p.
  - by apply run_invalid.
  - by apply run_bool.
  - by apply run_float64.
  - by apply run_string.
  - eapply run_slice; [reflexivity|]. by apply flattenSlice_run_complete.
  - eapply run_map; [reflexivity|]. by apply flattenMap_run_complete.
  - destruct e;
      first [ by apply run_unknown
            | refine (flatten_run_Elem st p _ _ _ _ (IH st p)); reflexivity ].
  - destruct e;
      first [ by apply run_unknown
            | refine (flatten_run_Elem st p _ _ _ _ (IH st p)); reflexivity ].
  - by apply run_unknown.
Qed.

(** C8: two invocations of flatten entered with the same record, the same
    prefix and the same document enumerated in the same key order (a value
    lists the entries of each of its maps in the order of the run) end the
    same way; when they return, the two records are equal: same keys, same
    value for each key. *)
Theorem flatten_deterministic (st : St) (p : string) (v : Value)
  (out1 out2 : option St) :
  flatten_run st p v out1 → flatten_run st p v out2 →
  out1 = out2
  ∧ ∀ st1 st2, out1 = Some st1 → out2 = Some st2 →
      dom (rec st1) = dom (rec st2)
      ∧ ∀ key, rec st1 !! key = rec st2 !! key.
Proof.
  intros ->%flatten_run_sound ->%flatten_run_sound.
  split; [reflexivity|].
  intros st1 st2 E1 E2. rewrite E1 in E2. injection E2 as <-. done.
Qed.

Lemma flatten_deterministic_witness :
  flatten_run st0 "root" (ValueOf Collision.document)
    (Some (mkSt {[ "root_a_b" := "false" ]} []))
  ∧ flatten st0 "root" (ValueOf Collision.document)
    = Some (mkSt {[ "root_a_b" := "false" ]} []).
Proof.
  pose proof (flatten_run_complete (ValueOf Collision.document) st0 "root")
    as Hfun.
  assert (flatten_run st0 "root" (ValueOf Collision.document)
            (Some (mkSt {[ "root_a_b" := "false" ]} []))) as Hrun.
  { exact Hfun. }
  split; [exact Hrun|].
  exact (proj1 (flatten_deterministic _ _ _ _ _ Hfun Hrun)).
Defined.

End DeterminismFacts.

(** ** The registry *)

Module RegistryFacts.
Import Registry.

Lemma resources_length : length resources = 17.
Proof. reflexivity. Qed.

Lemma resources_registered :
  Forall (λ resource,
            ∃ vo, resourceObject !! resource = Some vo
                  ∧ ((apiVersion vo = "v1"
                      ∧ watchResource_client resource = Some CoreRESTClient)
                     ∨ (apiVersion vo = "v1beta1"
                        ∧ watchResource_client resource
                          = Some ExtensionsRESTClient)))
    resources.
Proof.
  unfold resources.
  repeat (apply List.Forall_cons;
          [eexists; split; [vm_compute; reflexivity|];
           first [left; split; reflexivity | right; split; reflexivity] |]).
  apply List.Forall_nil.
Qed.

(** C9: each of the 17 names the argument parser accepts is a key of
    [resourceObject] whose [apiVersion] is ["v1"] or ["v1beta1"]; so the
    switch of [watchResource] takes one of its two cases and [client] is
    assigned the corresponding REST client instead of staying nil. *)
Theorem accepted_resource_has_client (resource : string) :
  accepted resource = true →
  length resources = 17
  ∧ ∃ vo, resourceObject !! resource = Some vo
      ∧ ((apiVersion vo = "v1"
          ∧ watchResource_client resource = Some CoreRESTClient)
         ∨ (apiVersion vo = "v1beta1"
            ∧ watchResource_client resource = Some ExtensionsRESTClient))
      ∧ watchResource_client resource ≠ None.
Proof.
  intros Hacc. apply bool_decide_eq_true in Hacc.
  split; [reflexivity|].
  pose proof resources_registered as Hall.
  rewrite Forall_forall in Hall.
  destruct (Hall resource Hacc) as (vo & Hvo & Hcase).
  exists vo. split; [exact Hvo|]. split; [exact Hcase|].
  destruct Hcase as [[_ ->] | [_ ->]]; discriminate.
Qed.

Lemma accepted_resource_has_client_witness :
  accepted "ingresses" = true
  ∧ watchResource_client "ingresses" = Some ExtensionsRESTClient.
Proof.
  split; [reflexivity|].
  destruct (accepted_resource_has_client "ingresses" eq_refl)
    as (_ & vo & Hvo & [[Hv _] | [_ Hc]] & _); [|exact Hc].
  vm_compute in Hvo. injection Hvo as <-. discriminate Hv.
Defined.

End RegistryFacts.

(** ** printEvent *)

Module SinkFacts.
Import StringFacts FlattenFacts.

Lemma quiet_logs (lg : list LogEntry) : quiet (map Logged lg).
Proof. induction lg; constructor; auto. Qed.

(** A trace with a single [Sent] splits around it in one way only. *)
Lemma split_at_sent (pre post t1 t2 : list Effect) (e ev : Event) :
  Forall (λ eff, isSent eff = false) pre →
  Forall (λ eff, isSent eff = false) post →
  pre ++ Sent e :: post = t1 ++ Sent ev :: t2 →
  t1 = pre ∧ ev = e ∧ t2 = post.
Proof.
  intros Hpre Hpost. revert t1.
  induction Hpre as [|a pre Ha _ IH]; intros [|x t1] E; cbn in E.
  - by injection E as -> ->.
  - injection E as <- ->. exfalso.
    rewrite Forall_forall in Hpost.
    assert (isSent (Sent ev) = false) as Hs; [|discriminate Hs].
    apply Hpost, elem_of_app. right. by left.
  - injection E as -> _. discriminate Ha.
  - injection E as <- E. destruct (IH t1 E) as (-> & -> & ->). done.
Qed.

(** The root prefix of [printEvent] is not empty, so its call of flatten
    returns. *)
Lemma flatten_kubewatch_returns (dat : list (string * JSON)) :
  ∃ st, flatten st0 "kubewatch" (ValueOf dat) = Some st.
Proof.
  destruct (flatten_leaves (ValueOf dat) st0 "kubewatch") as [lg ->];
    [discriminate | eauto].
Qed.

Section PrintEvent.
Context {Obj : Type}.
Variable flgFlatten : bool.
Variables splunkHost splunkIndex splunkSource splunkSourceType : string.
Variable Marshal : Obj → Result string.
Variable Unmarshal : string → Result (list (string * JSON)).
Variable MarshalRecord : gmap string string → Result string.
Variable Printf : string → Result nat.
Variable WriteEvent : Event → Result unit.

(** [printEvent] and its last part with the configuration of the section,
    the console being left as a parameter. *)
Let run (console : string → Result nat) : Obj → list Effect * Outcome :=
  printEvent flgFlatten splunkHost splunkIndex splunkSource splunkSourceType
    Marshal Unmarshal MarshalRecord console WriteEvent.

Let send (console : string → Result nat) : string → list Effect * Outcome :=
  deliver splunkHost splunkIndex splunkSource splunkSourceType
    console WriteEvent.

Let event (jsn : string) : Event :=
  mkEvent jsn splunkHost splunkIndex splunkSource splunkSourceType.

Lemma printEvent_never_panics (obj : Obj) : snd (run Printf obj) ≠ Panicked.
Proof.
  unfold run, printEvent, deliver.
  destruct (Marshal obj) as [jsn|]; [|discriminate].
  destruct flgFlatten.
  - destruct (Unmarshal jsn) as [dat|]; [|discriminate].
    destruct (flatten_kubewatch_returns dat) as [st ->].
    destruct (MarshalRecord (rec st)); [|discriminate].
    cbn. destruct (WriteEvent _); discriminate.
  - destruct (WriteEvent _); discriminate.
Qed.

(** What [deliver] does. *)
Lemma deliver_trace (jsn : string) :
  ∃ tail,
    fst (send Printf jsn)
    = [Printed (jsn +:+ nl) (Printf (jsn +:+ nl))] ++ Sent (event jsn) :: tail
    ∧ ((∃ u, WriteEvent (event jsn) = Ok u ∧ tail = []
             ∧ snd (send Printf jsn) = Returned)
       ∨ (∃ e, WriteEvent (event jsn) = Err e ∧ tail = [Logged (LogFatal e)]
               ∧ snd (send Printf jsn) = Exited 1)).
Proof.
  unfold send, deliver, event.
  destruct (WriteEvent (mkEvent jsn _ _ _ _)) as [u|e] eqn:Hw.
  - exists []. split; [reflexivity|]. left. by exists u.
  - exists [Logged (LogFatal e)]. split; [reflexivity|]. right. by exists e.
Qed.

(** Either nothing reaches the sinks and the call returns after logging an
    error, or the call ends with [deliver]. *)
Lemma printEvent_trace (obj : Obj) :
  (quiet (fst (run Printf obj)) ∧ snd (run Printf obj) = Returned
   ∧ ∃ lg msg, fst (run Printf obj) = map Logged lg ++ [Logged (LogError msg)])
  ∨ ∃ lg jsn,
      run Printf obj
      = (map Logged lg ++ fst (send Printf jsn), snd (send Printf jsn)).
Proof.
  unfold run, send, printEvent.
  destruct (Marshal obj) as [jsn|].
  2:{ left. split; [repeat constructor|]. split; [reflexivity|].
      by exists [], "Ops! Cannot marshal JSON". }
  destruct flgFlatten.
  2:{ right. exists [], jsn. cbn [map app]. by destruct (deliver _ _ _ _ _ _ _). }
  destruct (Unmarshal jsn) as [dat|].
  2:{ left. split; [repeat constructor|]. split; [reflexivity|].
      by exists [], "Ops! Cannot unmarshal JSON". }
  destruct (flatten_kubewatch_returns dat) as [st ->].
  destruct (MarshalRecord (rec st)) as [jsn'|].
  - right. by exists (logged st), jsn'.
  - left. split; [|split; [reflexivity|]].
    + apply Forall_app. split; [apply quiet_logs | repeat constructor].
    + by exists (logged st), "Ops! Cannot marshal JSON".
Qed.

(** The trace of a call that sends [ev]. *)
Lemma printEvent_sent (obj : Obj) (t1 t2 : list Effect) (ev : Event) :
  fst (run Printf obj) = t1 ++ Sent ev :: t2 →
  ∃ lg,
    t1 = map Logged lg ++ [Printed (body ev +:+ nl) (Printf (body ev +:+ nl))]
    ∧ ((∃ u, WriteEvent ev = Ok u ∧ t2 = []
             ∧ snd (run Printf obj) = Returned)
       ∨ (∃ e, WriteEvent ev = Err e ∧ t2 = [Logged (LogFatal e)]
               ∧ snd (run Printf obj) = Exited 1)).
Proof.
  intros E.
  destruct (printEvent_trace obj) as [(Hq & _) | (lg & jsn & Hrun)].
  { exfalso. rewrite E in Hq. apply Forall_app in Hq as [_ Hq].
    apply Forall_cons in Hq as [[_ Hs] _]. discriminate Hs. }
  rewrite Hrun in E |- *. cbn [fst snd] in *.
  destruct (deliver_trace jsn) as (tail & Htrace & Hend).
  rewrite Htrace, app_assoc in E.
  destruct (split_at_sent
              (map Logged lg ++ [Printed (jsn +:+ nl) (Printf (jsn +:+ nl))])
              tail t1 t2 (event jsn) ev) as (-> & -> & ->).
  - apply Forall_app. split; [|repeat constructor].
    apply Forall_fmap, Forall_true. done.
  - destruct Hend as [(u & _ & -> & _) | (e & _ & -> & _)];
      repeat constructor.
  - by symmetry.
  - exists lg. split; [reflexivity | exact Hend].
Qed.

(** The way a call ends does not depend on what the console write returns. *)
Lemma printEvent_console_irrelevant (obj : Obj) (console : string → Result nat) :
  snd (run console obj) = snd (run Printf obj).
Proof.
  unfold run, printEvent, deliver.
  destruct (Marshal obj) as [jsn|]; [|reflexivity].
  destruct flgFlatten.
  - destruct (Unmarshal jsn) as [dat|]; [|reflexivity].
    destruct (flatten _ _ _) as [st|]; [|reflexivity].
    destruct (MarshalRecord (rec st)); [|reflexivity].
    cbn. destruct (WriteEvent _); reflexivity.
  - destruct (WriteEvent _); reflexivity.
Qed.

(** C6: when the payload cannot be marshalled, or, in flatten mode, its JSON
    cannot be unmarshalled or the flat record cannot be marshalled,
    [printEvent] logs the error, writes nothing to the console, sends nothing
    to the collector and returns. *)
Theorem printEvent_encoding_error (obj : Obj) :
  encodingFails flgFlatten Marshal Unmarshal MarshalRecord obj →
  snd (run Printf obj) = Returned
  ∧ quiet (fst (run Printf obj))
  ∧ ∃ t msg, fst (run Printf obj) = t ++ [Logged (LogError msg)].
Proof.
  assert (∀ lg msg, quiet (map Logged lg ++ [Logged (LogError msg)])) as Hq.
  { intros lg msg. apply Forall_app. split; [apply quiet_logs|].
    repeat constructor. }
  unfold run, printEvent.
  intros [[e ->] | (-> & jsn & -> & [[e ->] | (dat & st & e & -> & -> & ->)])].
  - split; [reflexivity|]. split; [apply (Hq [])|]. exists []. by eexists.
  - split; [reflexivity|]. split; [apply (Hq [])|]. exists []. by eexists.
  - split; [reflexivity|]. split; [apply Hq|]. by do 2 eexists.
Qed.

(** C7: once a record is sent to the collector, [printEvent] ends the
    process (exit status 1, after logging the error at level Fatal) when the
    write fails and returns when it succeeds; whatever the console write
    returned makes no difference to the way the call ends. *)
Theorem printEvent_remote_failure_fatal (obj : Obj) (ev : Event) :
  Sent ev ∈ fst (run Printf obj) →
  snd (run Printf obj)
  = match WriteEvent ev with
    | Err _ => Exited 1
    | Ok _ => Returned
    end
  ∧ (∀ e, WriteEvent ev = Err e →
       ∃ t, fst (run Printf obj) = t ++ [Logged (LogFatal e)])
  ∧ ∀ console, snd (run console obj) = snd (run Printf obj).
Proof.
  intros (t1 & t2 & E)%list_elem_of_split.
  destruct (printEvent_sent obj t1 t2 ev E) as (lg & _ & Hend).
  split; [|split].
  - by destruct Hend as [(u & -> & _ & ->) | (e & -> & _ & ->)].
  - intros e He. rewrite E.
    destruct Hend as [(u & Hw & _) | (e' & Hw & -> & _)]; [congruence|].
    rewrite Hw in He. injection He as ->.
    exists (t1 ++ [Sent ev]). by rewrite <- app_assoc.
  - intros console. apply printEvent_console_irrelevant.
Qed.


End PrintEvent.

Import Scenario.

Lemma printEvent_encoding_error_witness :
  encodingFails true marshal unmarshal marshalRecord false
  ∧ snd (handle true false) = Returned
  ∧ quiet (fst (handle true false)).
Proof.
  assert (encodingFails true marshal unmarshal marshalRecord false) as Hfail.
  { left. by eexists. }
  split; [exact Hfail|].
  destruct (printEvent_encoding_error true "node1" "main" "kubewatch" "json"
              marshal unmarshal marshalRecord brokenConsole refusing
              false Hfail) as (Hret & Hquiet & _).
  split; [exact Hret | exact Hquiet].
Defined.

Lemma printEvent_remote_failure_fatal_witness :
  Sent sentEvent ∈ fst (handle false true)
  ∧ snd (handle false true) = Exited 1.
Proof.
  assert (Sent sentEvent ∈ fst (handle false true)) as Hsent.
  { apply elem_of_cons. right. apply elem_of_cons. left. reflexivity. }
  split; [exact Hsent|].
  exact (proj1 (printEvent_remote_failure_fatal false "node1" "main"
                  "kubewatch" "json" marshal unmarshal marshalRecord
                  brokenConsole refusing true sentEvent Hsent)).
Defined.


End SinkFacts.

(** * Further properties of the code *)

(** ** When flatten returns, and what it leaves alone *)

Module FlattenMore.
Import StringFacts FmtFacts FlattenFacts PathFacts Edge.

Lemma flatten_nonempty_returns (st : St) (p : string) (v : Value) :
  p ≠ "" → is_Some (flatten st p v).
Proof. intros Hp. destruct (flatten_leaves v st p Hp) as [lg ->]. eauto. Qed.

Lemma sprintf_d_nonempty (i : nat) : sprintf_d i ≠ "".
Proof.
  intros E. apply (f_equal parse_d) in E.
  rewrite sprintf_d_parse in E. discriminate E.
Qed.

Lemma flattenSlice_from_returns (elems : list Value) (q : string) :
  ∀ i st, is_Some (flattenSlice_from flatten i elems q st).
Proof.
  induction elems as [|x rest IH]; intros i st; [by eexists|].
  cbn [flattenSlice_from].
  destruct (flatten_nonempty_returns st (q +:+ sprintf_d i) x)
    as [st' ->]; [|apply IH].
  intros E. destruct q; [exact (sprintf_d_nonempty i E) | discriminate E].
Qed.

Lemma flattenMap_empty_prefix (entries : list (Key * Value)) :
  Forall (λ kx, ∀ st, flatten st "" (snd kx) = None
                      ↔ panicsAtEmpty (snd kx) = true) entries →
  ∀ st, flattenMap_body flatten entries "" st = None
        ↔ existsb (λ kx, String.eqb (KeyString (KeyElem (fst kx))) ""
                         && panicsAtEmpty (snd kx)) entries = true.
Proof.
  induction 1 as [|[k x] rest Hx _ IH]; intros st; [by split|].
  cbn [flattenMap_body existsb fst snd]. cbn [snd] in Hx.
  set (st1 := if KeyIsString (KeyElem k) then st else _).
  change ("" +:+ KeyString (KeyElem k)) with (KeyString (KeyElem k)).
  rewrite orb_true_iff, andb_true_iff.
  destruct (String.eqb_spec (KeyString (KeyElem k)) "") as [-> | Hne].
  - destruct (flatten st1 "" x) as [st'|] eqn:E; cbn [mbind option_bind].
    + rewrite IH. split; [by right|].
      intros [[_ Hp] | Hr]; [|exact Hr].
      apply (Hx st1) in Hp. congruence.
    + split; [|done]. intros _. left. split; [done|]. by apply (Hx st1).
  - destruct (flatten_nonempty_returns st1 _ x Hne) as [st' ->].
    cbn [mbind option_bind]. rewrite IH. split; [by right|].
    by intros [[? _] | Hr].
Qed.

Lemma flatten_empty_prefix (v : Value) :
  ∀ st, flatten st "" v = None ↔ panicsAtEmpty v = true.
Proof.
  induction v as [| b | f | s | elems IH | entries IH | e IH | e IH | k]
    using Value_nested_ind; intros st; try (by split).
  - cbn [flatten Elem panicsAtEmpty]. unfold flattenSlice_body.
    destruct (flattenSlice_from_returns elems (addSep "") 0
                (store (addSep "" +:+ "#") (sprintf_d (length elems)) st))
      as [st' ->].
    by split.
  - cbn [flatten Elem panicsAtEmpty]. by apply flattenMap_empty_prefix.
  - destruct e; try exact (IH st); by split.
  - destruct e; try exact (IH st); by split.
Qed.

(** X1: flatten panics exactly when it is entered with the empty prefix on a
    value where an empty prefix reaches a boolean, number or string: the
    value itself, or one held in maps under empty-string keys only.  With a
    non-empty prefix it always returns. *)
Theorem flatten_panics_iff (st : St) (p : string) (v : Value) :
  flatten st p v = None ↔ p = "" ∧ panicsAtEmpty v = true.
Proof.
  split.
  - intros E. destruct (String.eqb_spec p "") as [-> | Hp].
    + split; [done|]. by apply (flatten_empty_prefix v st).
    + destruct (flatten_nonempty_returns st p v Hp) as [st' E']. congruence.
  - intros [-> Hv]. by apply flatten_empty_prefix.
Qed.

Lemma pathKey_shape (p : string) (path : list string) :
  pathKey p path = p ∨ ∃ t, pathKey p path = p +:+ "_" +:+ t.
Proof.
  destruct path as [|s path]; [left; apply pathKey_nil|].
  right. exists (s +:+ joinPath path). reflexivity.
Qed.

Lemma recordOf_lookup_other root ls (r : gmap string string) (k : string) :
  (∀ leaf, leaf ∈ ls → pathKey root (fst leaf) ≠ k) →
  recordOf root ls r !! k = r !! k.
Proof.
  induction ls as [|last ls IH] using rev_ind; intros Hk; [done|].
  rewrite recordOf_snoc, lookup_insert_ne.
  - apply IH. intros leaf Hin. apply Hk, elem_of_app. by left.
  - apply Hk, elem_of_app. right. by apply list_elem_of_singleton.
Qed.

Lemma recordOf_lookup_mono root ls (r : gmap string string) (k : string) :
  is_Some (r !! k) → is_Some (recordOf root ls r !! k).
Proof.
  induction ls as [|last ls IH] using rev_ind; intros Hk; [done|].
  rewrite recordOf_snoc, lookup_insert_is_Some.
  destruct (decide (pathKey root (fst last) = k)); [by left|].
  right. split; [done | by apply IH].
Qed.

(** X2: a call of flatten with a non-empty prefix [p] only writes keys of its
    own namespace: every key other than [p] and the keys beginning with [p_]
    holds what it held before; no key is removed from the record, and the
    log is only extended. *)
Theorem flatten_frame (st st' : St) (p : string) (v : Value) :
  p ≠ "" → flatten st p v = Some st' →
  (∀ k, k ≠ p → (∀ t, k ≠ p +:+ "_" +:+ t) → rec st' !! k = rec st !! k)
  ∧ dom (rec st) ⊆ dom (rec st')
  ∧ logged st `prefix_of` logged st'.
Proof.
  intros Hp Hrun. destruct (flatten_leaves v st p Hp) as [lg E].
  rewrite Hrun in E. injection E as ->. cbn [rec logged].
  split; [|split].
  - intros k Hk1 Hk2. apply recordOf_lookup_other. intros leaf _ E.
    destruct (pathKey_shape p (fst leaf)) as [E' | [t E']];
      rewrite E' in E; [by apply Hk1 | by apply (Hk2 t)].
  - intros k Hk. apply elem_of_dom. apply elem_of_dom in Hk.
    by apply recordOf_lookup_mono.
  - by exists lg.
Qed.

Lemma flatten_frame_witness :
  "root" ≠ ""
  ∧ flatten (mkSt {[ "other" := "kept" ]} []) "root"
      (ValueOf Collision.document)
    = Some (mkSt {[ "other" := "kept"; "root_a_b" := "false" ]} [])
  ∧ ({[ "other" := "kept"; "root_a_b" := "false" ]} : gmap string string)
      !! "other" = Some "kept".
Proof.
  assert (flatten (mkSt {[ "other" := "kept" ]} []) "root"
            (ValueOf Collision.document)
          = Some (mkSt {[ "other" := "kept"; "root_a_b" := "false" ]} []))
    as Hrun by (vm_compute; reflexivity).
  split; [discriminate|]. split; [exact Hrun|].
  destruct (flatten_frame _ _ "root" _ ltac:(discriminate) Hrun) as (Hout & _).
  cbn [rec] in Hout. rewrite (Hout "other"); [reflexivity | discriminate|].
  intros t. discriminate.
Defined.

(** The last write to a key decides what the record holds under it. *)
Lemma recordOf_last_write root (before after : list (list string * string))
  (leaf : list string * string) (r : gmap string string) :
  (∀ l, l ∈ after → pathKey root (fst l) ≠ pathKey root (fst leaf)) →
  recordOf root (before ++ leaf :: after) r !! pathKey root (fst leaf)
  = Some (snd leaf).
Proof.
  intros Hlast. rewrite (recordOf_app root before (leaf :: after)).
  change (leaf :: after) with ([leaf] ++ after).
  rewrite recordOf_app, recordOf_lookup_other by done.
  unfold recordOf at 1. cbn [foldl]. apply lookup_insert_eq.
Qed.

(** X3: when several leaves of a document get the same key, the one visited
    last is the one the record holds: a leaf after which no leaf has the same
    path key is found under its key with its own value. *)
Theorem flatten_last_write_wins (st st' : St) (p : string) (v : Value)
  (before after : list (list string * string)) (leaf : list string * string) :
  p ≠ "" → flatten st p v = Some st' →
  leaves v = before ++ leaf :: after →
  (∀ l, l ∈ after → pathKey p (fst l) ≠ pathKey p (fst leaf)) →
  rec st' !! pathKey p (fst leaf) = Some (snd leaf).
Proof.
  intros Hp Hrun Hsplit Hlast. destruct (flatten_leaves v st p Hp) as [lg E].
  rewrite Hrun in E. injection E as ->. cbn [rec].
  rewrite Hsplit. by apply recordOf_last_write.
Qed.

Lemma flatten_last_write_wins_witness :
  "root" ≠ ""
  ∧ leaves (ValueOf Collision.document)
    = [(["a"; "b"], "true")] ++ (["a_b"], "false") :: []
  ∧ ∃ st', flatten st0 "root" (ValueOf Collision.document) = Some st'
           ∧ rec st' !! "root_a_b" = Some "false".
Proof.
  split; [discriminate|]. split; [reflexivity|].
  destruct (flatten_nonempty_returns st0 "root" (ValueOf Collision.document))
    as [st' Hrun]; [discriminate|].
  exists st'. split; [exact Hrun|].
  apply (flatten_last_write_wins st0 st' "root" (ValueOf Collision.document)
           [(["a"; "b"], "true")] [] (["a_b"], "false"));
    [discriminate | exact Hrun | reflexivity |].
  intros l Hl. by apply elem_of_nil in Hl.
Defined.

Lemma flattenMap_body_app (m1 m2 : list (Key * Value)) (q : string) :
  ∀ st, flattenMap_body flatten (m1 ++ m2) q st
        = flattenMap_body flatten m1 q st
            ≫= flattenMap_body flatten m2 q.
Proof.
  induction m1 as [|[k x] m1 IH]; intros st; [reflexivity|].
  cbn [app flattenMap_body].
  destruct (flatten _ _ x) as [st'|]; cbn [mbind option_bind]; [apply IH | done].
Qed.

(** X4: flattening a map is flattening its entries in turn into the same
    record: for a map whose enumeration is [m1] followed by [m2], flatten
    does what flatten on [m1] followed by flatten on [m2] does, a panic in the
    first part ending the call. *)
Theorem flatten_map_app (st : St) (p : string) (m1 m2 : list (Key * Value)) :
  flatten st p (VMap (m1 ++ m2))
  = flatten st p (VMap m1) ≫= λ st', flatten st' p (VMap m2).
Proof. cbn [flatten Elem]. apply flattenMap_body_app. Qed.

Lemma sprintf_d_head (i : nat) :
  ∃ c s, sprintf_d i = String c s ∧ c ≠ "#"%char.
Proof.
  unfold sprintf_d, NilZero.string_of_uint.
  destruct (Nat.to_uint i); cbn [NilEmpty.string_of_uint];
    eexists _, _; (split; [reflexivity | discriminate]).
Qed.

Lemma leavesSlice_heads (elems : list Value) :
  ∀ i leaf, leaf ∈ leavesSlice_from leaves i elems →
            ∃ j path, fst leaf = sprintf_d j :: path.
Proof.
  induction elems as [|x rest IH]; intros i leaf; cbn [leavesSlice_from].
  - intros H. by apply elem_of_nil in H.
  - intros [Hin | Hin]%elem_of_app; [|by apply (IH (S i))].
    apply list_elem_of_fmap in Hin as (l0 & -> & _). by eexists _, _.
Qed.

(** X16: the length entry of a sequence is never overwritten by what its
    elements write, whatever they hold: after flatten (non-empty prefix [p])
    on a sequence, the key [p_#] holds the decimal string of its length, from
    which the length can be read back. *)
Theorem flatten_slice_length_kept (st st' : St) (p : string)
  (elems : list Value) :
  p ≠ "" → flatten st p (VSlice elems) = Some st' →
  rec st' !! (p +:+ "_#") = Some (sprintf_d (length elems))
  ∧ parse_d (sprintf_d (length elems)) = Some (length elems).
Proof.
  intros Hp Hrun. split; [|apply sprintf_d_parse].
  change (p +:+ "_#")
    with (pathKey p (fst (["#"], sprintf_d (length elems)))).
  destruct (flatten_leaves (VSlice elems) st p Hp) as [lg E].
  rewrite Hrun in E. injection E as ->. cbn [rec].
  apply (recordOf_last_write p [] (leavesSlice_from leaves 0 elems)).
  intros l Hl E. apply leavesSlice_heads in Hl as (j & path & Hj).
  rewrite Hj in E. unfold pathKey in E. apply (inj (String.append p)) in E.
  cbn [joinPath fst] in E. apply (inj (String.append "_")) in E.
  destruct (sprintf_d_head j) as (c & s & Hd & Hc). rewrite Hd in E.
  rewrite append_cons in E. injection E as E _. by apply Hc.
Qed.

Lemma flatten_slice_length_kept_witness :
  "root" ≠ ""
  ∧ ∃ st', flatten st0 "root" (VSlice [VSlice [VBool true]; VOther "int"])
           = Some st'
         ∧ rec st' !! "root_#" = Some "2".
Proof.
  split; [discriminate|].
  destruct (flatten_nonempty_returns st0 "root"
              (VSlice [VSlice [VBool true]; VOther "int"]))
    as [st' Hrun]; [discriminate|].
  exists st'. split; [exact Hrun|].
  exact (proj1 (flatten_slice_length_kept st0 st' "root" _
                  ltac:(discriminate) Hrun)).
Defined.

End FlattenMore.

(** ** Decoded documents *)

Module JsonFacts.
Import StringFacts FmtFacts FlattenFacts PathFacts FlattenMore JsonInd Edge.

Lemma silent_interface (j : JSON) : silent (dynamic j) → silent (VInterface (dynamic j)).
Proof. intros H st p Hp. destruct j; exact (H st p Hp). Qed.

Lemma flattenSlice_silent (elems : list JSON) (q : string) :
  Forall (λ j, silent (dynamic j)) elems →
  ∀ i st, ∃ r',
    flattenSlice_from flatten i (map (λ x, VInterface (dynamic x)) elems)
      (q +:+ "_") st
    = Some (mkSt r' (logged st)).
Proof.
  induction 1 as [|j rest Hj _ IH]; intros i st.
  - exists (rec st). by destruct st.
  - cbn [map flattenSlice_from].
    destruct (silent_interface j Hj st ((q +:+ "_") +:+ sprintf_d i)
                (sep_append_nonempty _ _)) as [r1 ->].
    cbn [mbind option_bind]. apply (IH (S i) (mkSt r1 (logged st))).
Qed.

Lemma flattenMap_silent (fields : list (string * JSON)) (q : string) :
  Forall (λ kj, silent (dynamic (snd kj))) fields →
  ∀ st, ∃ r',
    flattenMap_body flatten
      (map (λ kv, (KString (fst kv), VInterface (dynamic (snd kv)))) fields)
      (q +:+ "_") st
    = Some (mkSt r' (logged st)).
Proof.
  induction 1 as [|[k j] rest Hj _ IH]; intros st.
  - exists (rec st). by destruct st.
  - cbn [map flattenMap_body fst snd KeyElem KeyIsString KeyString].
    cbn [snd] in Hj.
    destruct (silent_interface j Hj st ((q +:+ "_") +:+ k)
                (sep_append_nonempty _ _)) as [r1 ->].
    cbn [mbind option_bind]. apply (IH (mkSt r1 (logged st))).
Qed.

Lemma dynamic_silent (j : JSON) : silent (dynamic j).
Proof.
  induction j as [| b | f | s | elems IH | fields IH] using JSON_nested_ind;
    intros st p Hp.
  - exists (rec st). by destruct st.
  - cbn [dynamic flatten Elem]. unfold flattenBool.
    rewrite addSep_nonempty, chop_sep by done. destruct b; by eexists.
  - cbn [dynamic flatten Elem]. unfold flattenFloat64.
    rewrite addSep_nonempty, chop_sep by done. by eexists.
  - cbn [dynamic flatten Elem]. unfold flattenString.
    rewrite addSep_nonempty, chop_sep by done. by eexists.
  - cbn [dynamic flatten Elem]. unfold flattenSlice_body.
    rewrite addSep_nonempty by done.
    apply (flattenSlice_silent elems p IH 0
             (store ((p +:+ "_") +:+ "#") _ st)).
  - cbn [dynamic flatten Elem]. rewrite addSep_nonempty by done.
    by apply flattenMap_silent.
Qed.

(** X5: on a decoded JSON document the anomaly branches of flatten are never
    taken: with a non-empty prefix the call returns and the log is exactly
    the one it was entered with (no "Unknown", no "map key is not string"). *)
Theorem flatten_decoded_logs_nothing (st : St) (p : string) (j : JSON) :
  p ≠ "" →
  ∃ st', flatten st p (dynamic j) = Some st' ∧ logged st' = logged st.
Proof.
  intros Hp. destruct (dynamic_silent j st p Hp) as [r' E].
  by exists (mkSt r' (logged st)).
Qed.

Lemma flatten_decoded_logs_nothing_witness :
  "kubewatch" ≠ ""
  ∧ ∃ st', flatten st0 "kubewatch"
             (dynamic (JObject [("x", JNull); ("y", JArray [JNull; number 3])]))
           = Some st'
         ∧ logged st' = [].
Proof.
  split; [discriminate|].
  apply (flatten_decoded_logs_nothing st0 "kubewatch"). discriminate.
Defined.




End JsonFacts.

(** ** printEvent, further *)

Module SinkMore.
Import StringFacts FlattenFacts PathFacts FlattenMore JsonFacts SinkFacts.



Section PrintEvent.
Context {Obj : Type}.
Variable flgFlatten : bool.
Variables splunkHost splunkIndex splunkSource splunkSourceType : string.
Variable Marshal : Obj → Result string.
Variable Unmarshal : string → Result (list (string * JSON)).
Variable MarshalRecord : gmap string string → Result string.
Variable Printf : string → Result nat.
Variable WriteEvent : Event → Result unit.

Let run (flat : bool) : Obj → list Effect * Outcome :=
  printEvent flat splunkHost splunkIndex splunkSource splunkSourceType
    Marshal Unmarshal MarshalRecord Printf WriteEvent.

Let send : string → list Effect * Outcome :=
  deliver splunkHost splunkIndex splunkSource splunkSourceType
    Printf WriteEvent.



(** X8: with flattening off, the console output of [printEvent] is that of
    the original [printEvent] of kubewatch.go: the line it printed for a
    payload that marshals, nothing for one that does not. *)
Theorem printEvent_console_as_original (obj : Obj) :
  List.filter isPrinted (fst (run false obj))
  = Original.printEvent Marshal Printf obj.
Proof.
  unfold run, printEvent, Original.printEvent, deliver.
  destruct (Marshal obj) as [jsn|]; [|reflexivity].
  by destruct (WriteEvent _).
Qed.

Lemma sent_in_delivery (lg : list LogEntry) (jsn : string) (ev : Event) :
  Sent ev ∈ map Logged lg ++ fst (send jsn) →
  ev = mkEvent jsn splunkHost splunkIndex splunkSource splunkSourceType.
Proof.
  intros [Hin | Hin]%elem_of_app.
  { apply list_elem_of_fmap in Hin as (? & ? & _). discriminate. }
  unfold send, deliver in Hin.
  destruct (WriteEvent _); cbn [fst] in Hin;
    repeat (apply elem_of_cons in Hin as [Hin | Hin];
            [first [discriminate Hin | by injection Hin]|]);
    by apply elem_of_nil in Hin.
Qed.

(** X15: every event [printEvent] sends to the collector carries the host,
    index, source and source type of the configuration; with flattening off
    its body is the JSON the payload marshalled to, unchanged. *)
Theorem printEvent_event_fields (obj : Obj) (ev : Event) :
  Sent ev ∈ fst (run flgFlatten obj) →
  host ev = splunkHost ∧ index ev = splunkIndex
  ∧ source ev = splunkSource ∧ sourcetype ev = splunkSourceType
  ∧ (flgFlatten = false → Marshal obj = Ok (body ev)).
Proof.
  unfold run, printEvent. intros Hsent.
  assert (∀ t : list Effect, quiet t → Sent ev ∈ t → False) as Hquiet.
  { intros t Hq Hin. unfold quiet in Hq. rewrite Forall_forall in Hq.
    by destruct (Hq _ Hin). }
  destruct (Marshal obj) as [jsn|].
  2:{ exfalso. apply (Hquiet _ (quiet_logs [LogError _]) Hsent). }
  destruct flgFlatten.
  - destruct (Unmarshal jsn) as [dat|].
    2:{ exfalso. apply (Hquiet _ (quiet_logs [LogError _]) Hsent). }
    destruct (flatten _ _ _) as [st|].
    2:{ by apply elem_of_nil in Hsent. }
    destruct (MarshalRecord (rec st)) as [jsn'|]; cbn [fst] in Hsent.
    + apply sent_in_delivery in Hsent as ->. by repeat split.
    + exfalso.
      apply (Hquiet _ (quiet_logs
                         (logged st ++ [LogError "Ops! Cannot marshal JSON"]))).
      by rewrite map_app.
  - apply (sent_in_delivery []) in Hsent as ->. by repeat split.
Qed.

(** X17: a call of [printEvent] never panics and ends in one of two ways:
    it returns, or it exits with status 1; it exits exactly when it sent an
    event and the collector refused it. *)
Theorem printEvent_outcomes (obj : Obj) :
  (snd (run flgFlatten obj) = Returned ∨ snd (run flgFlatten obj) = Exited 1)
  ∧ (snd (run flgFlatten obj) = Exited 1
     ↔ ∃ ev e, Sent ev ∈ fst (run flgFlatten obj) ∧ WriteEvent ev = Err e).
Proof.
  unfold run.
  destruct (printEvent_trace flgFlatten splunkHost splunkIndex splunkSource
              splunkSourceType Marshal Unmarshal MarshalRecord Printf
              WriteEvent obj) as [(Hq & Hret & _) | (lg & jsn & E)].
  - split; [by left|]. rewrite Hret.
    split; [discriminate|]. intros (ev & e & Hin & _). exfalso.
    unfold quiet in Hq. rewrite Forall_forall in Hq.
    by destruct (Hq _ Hin).
  - rewrite E. cbn [fst snd].
    destruct (deliver_trace splunkHost splunkIndex splunkSource
                splunkSourceType Printf WriteEvent jsn)
      as (tail & Ht & [(u & Hw & -> & Hs) | (e & Hw & -> & Hs)]);
      rewrite Hs.
    + split; [by left|]. split; [discriminate|].
      intros (ev & e & Hin & He). apply sent_in_delivery in Hin as ->.
      congruence.
    + split; [by right|]. split; [|done]. intros _.
      exists (mkEvent jsn splunkHost splunkIndex splunkSource splunkSourceType), e.
      split; [|exact Hw]. rewrite Ht. apply elem_of_app. right.
      apply elem_of_app. right. by left.
Qed.

End PrintEvent.

Import Scenario.


Lemma printEvent_event_fields_witness :
  Sent sentEvent ∈ fst (handle false true)
  ∧ host sentEvent = "node1" ∧ marshal true = Ok (body sentEvent).
Proof.
  assert (Sent sentEvent ∈ fst (handle false true)) as Hsent.
  { apply elem_of_cons. right. apply elem_of_cons. left. reflexivity. }
  split; [exact Hsent|].
  destruct (printEvent_event_fields false "node1" "main" "kubewatch" "json"
              marshal unmarshal marshalRecord brokenConsole refusing
              true sentEvent Hsent) as (Hhost & _ & _ & _ & Hbody).
  split; [exact Hhost | exact (Hbody eq_refl)].
Defined.

End SinkMore.

(** ** The order in which maps are enumerated *)

Module OrderFacts.
Import StringFacts FmtFacts FlattenFacts PathFacts FlattenMore Edge.

Lemma leavesMap_perm (m m' : list (Key * Value)) :
  m ≡ₚ m' → leavesMap leaves m ≡ₚ leavesMap leaves m'.
Proof.
  induction 1 as [| [k x] m m' _ IH | [k x] [k' y] m | m1 m2 m3 _ IH1 _ IH2].
  - reflexivity.
  - cbn [leavesMap]. by apply Permutation_app_head.
  - cbn [leavesMap]. rewrite !app_assoc.
    apply Permutation_app_tail, Permutation_app_comm.
  - by etrans.
Qed.

Lemma leavesMap_same (m : list (Key * Value)) :
  Forall (λ kx, ∀ w, reordered (snd kx) w → leaves (snd kx) ≡ₚ leaves w) m →
  ∀ m', sameEntries reordered m m' →
        leavesMap leaves m ≡ₚ leavesMap leaves m'.
Proof.
  induction 1 as [|[k x] m Hx _ IH]; intros [|[k' y] m'] Hsame;
    try contradiction; [reflexivity|].
  cbn [sameEntries] in Hsame. destruct Hsame as (<- & Hxy & Hrest).
  cbn [leavesMap]. apply Permutation_app; [|by apply IH].
  apply Permutation_map. by apply Hx.
Qed.

Lemma leavesSlice_same (l : list Value) :
  Forall (λ x, ∀ w, reordered x w → leaves x ≡ₚ leaves w) l →
  ∀ l', sameElems reordered l l' →
        length l = length l'
        ∧ ∀ i, leavesSlice_from leaves i l ≡ₚ leavesSlice_from leaves i l'.
Proof.
  induction 1 as [|x l Hx _ IH]; intros [|y l'] Hsame;
    try contradiction; [by split|].
  cbn [sameElems] in Hsame. destruct Hsame as [Hxy Hrest].
  destruct (IH l' Hrest) as [Hlen Hperm]. split; [cbn; by rewrite Hlen|].
  intros i. cbn [leavesSlice_from]. apply Permutation_app; [|apply Hperm].
  apply Permutation_map. by apply Hx.
Qed.

(** Enumerating the maps in another order permutes the leaves. *)
Lemma reordered_leaves (v : Value) :
  ∀ w, reordered v w → leaves v ≡ₚ leaves w.
Proof.
  induction v as [| b | f | s | elems IH | entries IH | e IH | e IH | k]
    using Value_nested_ind; intros w H;
    try (cbn in H; subst w; reflexivity).
  - destruct w; try contradiction. cbn [reordered] in H.
    destruct (leavesSlice_same elems IH _ H) as [Hlen Hperm].
    cbn [leaves Elem]. rewrite Hlen. apply perm_skip, Hperm.
  - destruct w as [| | | | |entries'| | |]; try contradiction.
    cbn [reordered] in H. destruct H as (m'' & Hsame & Hperm).
    cbn [leaves Elem]. etrans; [by apply leavesMap_same|].
    by apply leavesMap_perm.
  - destruct w as [| | | | | |e'| |]; try contradiction. cbn [reordered] in H.
    destruct e; cbn in H; try (subst e'; reflexivity);
      destruct e'; try contradiction;
      first [ reflexivity
            | match goal with
              | |- leaves (VPtr ?a) ≡ₚ leaves (VPtr ?b) =>
                  change (leaves a ≡ₚ leaves b); apply IH; exact H
              end ].
  - destruct w as [| | | | | | |e'|]; try contradiction. cbn [reordered] in H.
    destruct e; cbn in H; try (subst e'; reflexivity);
      destruct e'; try contradiction;
      first [ reflexivity
            | match goal with
              | |- leaves (VInterface ?a) ≡ₚ leaves (VInterface ?b) =>
                  change (leaves a ≡ₚ leaves b); apply IH; exact H
              end ].
Qed.

Lemma sameEntries_refl (m : list (Key * Value)) :
  Forall (λ kx, reordered (snd kx) (snd kx)) m → sameEntries reordered m m.
Proof. induction 1 as [|[k x] m Hx _ IH]; cbn; auto. Qed.

Lemma sameElems_refl (l : list Value) :
  Forall (λ x, reordered x x) l → sameElems reordered l l.
Proof. induction 1; cbn; auto. Qed.

Lemma reordered_refl (v : Value) : reordered v v.
Proof.
  induction v as [| b | f | s | elems IH | entries IH | e IH | e IH | k]
    using Value_nested_ind; cbn [reordered]; auto.
  - by apply sameElems_refl.
  - exists entries. split; [by apply sameEntries_refl | reflexivity].
Qed.

(** Another enumeration of the entries of a map is a reordering of it. *)
Lemma reordered_map_perm (m m' : list (Key * Value)) :
  m ≡ₚ m' → reordered (VMap m) (VMap m').
Proof.
  intros Hperm. exists m. split; [|exact Hperm].
  apply sameEntries_refl, Forall_forall. intros kx _. apply reordered_refl.
Qed.

(** Writing leaves with pairwise different keys in another order gives the
    same record. *)
Lemma recordOf_perm root ls ls' (r : gmap string string) :
  NoDup (map (λ leaf, pathKey root (fst leaf)) ls) → ls ≡ₚ ls' →
  recordOf root ls r = recordOf root ls' r.
Proof.
  intros Hnd Hperm. apply map_eq. intros k.
  assert (NoDup (map (λ leaf, pathKey root (fst leaf)) ls')) as Hnd'.
  { by rewrite <- (Permutation_map _ Hperm). }
  destruct (decide (k ∈ map (λ leaf, pathKey root (fst leaf)) ls)) as [Hin|Hout].
  - apply list_elem_of_fmap in Hin as (leaf & -> & Hleaf).
    rewrite !recordOf_lookup; [done | done | | done | done].
    by rewrite <- Hperm.
  - rewrite !recordOf_lookup_other; [done | |].
    + intros leaf Hleaf E. apply Hout, list_elem_of_fmap.
      exists leaf. split; [done | by rewrite Hperm].
    + intros leaf Hleaf E. apply Hout, list_elem_of_fmap. eauto.
Qed.

(** X9: for a document whose field names are strings without underscore,
    the flat record does not depend on the order in which MapKeys enumerates
    its maps: flatten, with a non-empty prefix, returns the same record for
    the value and for any reordering of it (the logs may differ in order). *)
Theorem flatten_order_independent (st : St) (p : string) (v w : Value) :
  p ≠ "" → plainKeys v = true → reordered v w →
  ∃ st1 st2, flatten st p v = Some st1 ∧ flatten st p w = Some st2
             ∧ rec st1 = rec st2.
Proof.
  intros Hp Hpl Hre.
  destruct (flatten_leaves v st p Hp) as [lg1 ->].
  destruct (flatten_leaves w st p Hp) as [lg2 ->].
  do 2 eexists. split; [reflexivity|]. split; [reflexivity|]. cbn [rec].
  apply recordOf_perm; [by apply leaves_keys_NoDup | by apply reordered_leaves].
Qed.

Lemma flatten_order_independent_witness :
  "root" ≠ ""
  ∧ plainKeys (VMap [(KString "a", VBool true); (KString "b", VSlice [])])
    = true
  ∧ reordered (VMap [(KString "a", VBool true); (KString "b", VSlice [])])
      (VMap [(KString "b", VSlice []); (KString "a", VBool true)])
  ∧ ∃ st1 st2,
      flatten st0 "root"
        (VMap [(KString "a", VBool true); (KString "b", VSlice [])]) = Some st1
      ∧ flatten st0 "root"
          (VMap [(KString "b", VSlice []); (KString "a", VBool true)]) = Some st2
      ∧ rec st1 = rec st2.
Proof.
  pose proof (reordered_map_perm _ _
                (perm_swap (KString "b", VSlice []) (KString "a", VBool true) []))
    as Hre.
  split; [discriminate|]. split; [reflexivity|]. split; [exact Hre|].
  apply flatten_order_independent; [discriminate | reflexivity | exact Hre].
Defined.

End OrderFacts.

(** ** Numbers that are integers *)

Module NumberFacts.
Import StringFacts FlattenFacts Edge.

Lemma fixed6_integral (n : N) :
  fixed6 (Z.of_N n * 1000000) = digits_N n +:+ ".000000".
Proof.
  unfold fixed6. rewrite Z.div_mul, Z.mod_mul, N2Z.id by lia. reflexivity.
Qed.

Lemma millionths_integral (m : positive) (e : Z) (n : N) :
  integral (S754_finite false m e) n →
  millionths m e = (Z.of_N n * 1000000)%Z.
Proof.
  unfold integral, millionths. destruct e as [|e|k]; intros H.
  - rewrite H. ring.
  - rewrite H. ring.
  - cbv zeta. rewrite H. rewrite Z.pow_pos_fold.
    assert (0 < 2 ^ Z.pos k)%Z as Hpos by (apply Z.pow_pos_nonneg; lia).
    replace (Z.of_N n * 2 ^ Z.pos k * 1000000)%Z
      with (Z.of_N n * 1000000 * 2 ^ Z.pos k)%Z by ring.
    rewrite Z.div_mul, Z.mod_mul by lia.
    assert ((2 * 0 ?= 2 ^ Z.pos k)%Z = Lt) as ->; [|reflexivity].
    apply Z.compare_lt_iff. lia.
Qed.

Lemma sprintf_f_integral (f : float64) (n : N) :
  integral f n →
  sprintf_f f = sign_prefix (isNegative f) +:+ digits_N n +:+ ".000000".
Proof.
  destruct f as [s | s | | s m e]; cbn [integral]; try contradiction.
  - intros ->. reflexivity.
  - intros H. cbn [sprintf_f isNegative]. f_equal.
    rewrite (millionths_integral m e n); [apply fixed6_integral|].
    exact H.
Qed.

(** X10: a number leaf whose value is an integer is stored with six zero
    decimals: for a float equal to the integer [n] up to its sign, flatten
    (non-empty prefix [p]) writes under [p] the decimal digits of [n]
    followed by [.000000], preceded by [-] when the sign bit is set. *)
Theorem flatten_integral_number (st : St) (p : string) (f : float64) (n : N) :
  p ≠ "" → integral f n →
  flatten st p (VFloat64 f)
  = Some (store p (sign_prefix (isNegative f) +:+ digits_N n +:+ ".000000") st).
Proof.
  intros Hp Hn. cbn [flatten Elem]. unfold flattenFloat64.
  rewrite addSep_nonempty, chop_sep by done. cbn [mbind option_bind].
  by rewrite (sprintf_f_integral f n Hn).
Qed.

Lemma flatten_integral_number_witness :
  "replicas" ≠ "" ∧ integral (float64_of_Z 3) 3
  ∧ flatten st0 "replicas" (VFloat64 (float64_of_Z 3))
    = Some (store "replicas" "3.000000" st0).
Proof.
  assert (integral (float64_of_Z 3) 3) as Hn by (vm_compute; reflexivity).
  split; [discriminate|]. split; [exact Hn|].
  exact (flatten_integral_number st0 "replicas" (float64_of_Z 3) 3
           ltac:(discriminate) Hn).
Defined.

End NumberFacts.

(** ** The configuration *)

Module ConfigFacts.
Import StringFacts Config.

Lemma home_config_proper (HOME : string) :
  HOME +:+ "/.kube/config" ≠ "" ∧ HOME +:+ "/.kube/config" ≠ ".".
Proof.
  split; intros E; apply (f_equal String.length) in E;
    rewrite length_append in E; cbn in E; lia.
Qed.

(** X11: with the default of the kubeconfig flag, [buildConfig] runs out of
    cluster on [$HOME/.kube/config] exactly when [os.Stat] finds that file,
    and in cluster otherwise, whatever [HOME] holds (also when it is
    empty). *)
Theorem buildConfig_default (HOME : string) (statOk : string → bool) :
  buildConfig (kubeconfigPath HOME statOk)
  = if statOk (HOME +:+ "/.kube/config")
    then (InfoOutOfCluster (HOME +:+ "/.kube/config"),
          OutOfCluster (HOME +:+ "/.kube/config"))
    else (InfoInCluster, InCluster).
Proof.
  unfold kubeconfigPath, buildConfig.
  destruct (statOk (HOME +:+ "/.kube/config")); [|reflexivity].
  destruct (home_config_proper HOME) as [H1 H2].
  apply String.eqb_neq in H1, H2. by rewrite H1, H2.
Qed.

End ConfigFacts.

(** ** The informers main starts *)

Module WatcherFacts.
Import Registry Config Watcher.

Lemma resourceObject_keys (r : string) (vo : verObj) :
  resourceObject !! r = Some vo → r ∈ resources.
Proof.
  intros H. unfold resourceObject in H. apply elem_of_list_to_map_2 in H.
  apply (list_elem_of_fmap_2 fst) in H. exact H.
Qed.

(** X12: for a name outside the 17 accepted ones the registry has no entry:
    [watchResource] reads the zero [verObj], its switch matches no case, and
    the informer is set up with a nil client and a nil prototype. *)
Theorem watchResource_unregistered (r ns : string) :
  accepted r = false →
  resourceObject !! r = None
  ∧ client (watchResource r ns) = None
  ∧ objType (watchResource r ns) = None.
Proof.
  intros Hacc. apply bool_decide_eq_false in Hacc.
  assert (resourceObject !! r = None) as Hnone.
  { destruct (resourceObject !! r) as [vo|] eqn:E; [|reflexivity].
    by apply resourceObject_keys in E. }
  split; [exact Hnone|].
  unfold watchResource, watchResource_client, resourceObject_at.
  cbn [client objType]. rewrite Hnone. split; reflexivity.
Qed.

Lemma watchResource_unregistered_witness :
  accepted "nodes" = false ∧ client (watchResource "nodes" "") = None.
Proof.
  split; [reflexivity|].
  exact (proj1 (proj2 (watchResource_unregistered "nodes" "" eq_refl))).
Defined.

Lemma registered_consistent :
  Forall (λ r, ∃ o, runtimeObject (resourceObject_at r) = Some o
                    ∧ watchResource_client r = Some (clientOf o))
    resources.
Proof.
  unfold resources.
  repeat (apply List.Forall_cons;
          [eexists; split; vm_compute; reflexivity |]).
  apply List.Forall_nil.
Qed.

(** X13: for every accepted name the informer decodes with a prototype of
    the API group its client serves: a [v1] prototype with the core client, a
    [v1beta1] prototype with the extensions client; neither is nil. *)
Theorem watchResource_registered (r ns : string) :
  accepted r = true →
  ∃ o, objType (watchResource r ns) = Some o
       ∧ client (watchResource r ns) = Some (clientOf o).
Proof.
  intros Hacc. apply bool_decide_eq_true in Hacc.
  pose proof registered_consistent as Hall. rewrite Forall_forall in Hall.
  exact (Hall r Hacc).
Qed.

Lemma watchResource_registered_witness :
  accepted "jobs" = true
  ∧ ∃ o, objType (watchResource "jobs" "default") = Some o
         ∧ client (watchResource "jobs" "default") = Some (clientOf o).
Proof.
  split; [reflexivity|].
  exact (watchResource_registered "jobs" "default" eq_refl).
Defined.

Section Main.
Context {RestConfig Clientset : Type}.
Variable BuildConfigFromFlags : string → Sink.Result RestConfig.
Variable InClusterConfig : Sink.Result RestConfig.
Variable NewForConfig : RestConfig → Sink.Result Clientset.

(** X14: when [main] gets as far as blocking, it has started one informer
    per requested resource, in the order of the arguments, each on the
    namespace of the flag; if the names are accepted ones, none of them has a
    nil client or prototype.  It gets that far only if both the configuration
    and the clientset were built. *)
Theorem main_starts_one_informer_each (kubeconfig ns : string)
  (args : list string) (started : list Informer) :
  main BuildConfigFromFlags InClusterConfig NewForConfig kubeconfig ns args
  = MainBlocked started →
  (∃ config clientset,
     buildConfig_call BuildConfigFromFlags InClusterConfig kubeconfig
     = Sink.Ok config
     ∧ NewForConfig config = Sink.Ok clientset)
  ∧ length started = length args
  ∧ ∀ i r, args !! i = Some r →
      ∃ w, started !! i = Some w
           ∧ resource w = r ∧ namespace w = ns
           ∧ (accepted r = true →
              ∃ o, objType w = Some o ∧ client w = Some (clientOf o)).
Proof.
  unfold main. intros H.
  destruct (buildConfig_call _ _ kubeconfig) as [config|]; [|discriminate H].
  destruct (NewForConfig config) as [clientset|] eqn:Hc; [|discriminate H].
  injection H as <-. split; [by eexists _, _|].
  split; [apply length_map|].
  intros i r Hr. exists (watchResource r ns). split.
  - change (map ?f args) with (f <$> args). by rewrite list_lookup_fmap, Hr.
  - split; [reflexivity|]. split; [reflexivity|].
    intros Hacc. apply bool_decide_eq_true in Hacc.
    pose proof registered_consistent as Hall. rewrite Forall_forall in Hall.
    exact (Hall r Hacc).
Qed.

End Main.

Lemma main_starts_one_informer_each_witness :
  main (λ _, Sink.Ok tt) (Sink.Err "not in cluster") (λ _, Sink.Ok tt)
    "/root/.kube/config" "default" ["pods"; "jobs"]
  = MainBlocked [watchResource "pods" "default"; watchResource "jobs" "default"]
  ∧ length [watchResource "pods" "default"; watchResource "jobs" "default"]
    = length ["pods"; "jobs"].
Proof.
  assert (main (λ _, Sink.Ok tt) (Sink.Err "not in cluster") (λ _, Sink.Ok tt)
            "/root/.kube/config" "default" ["pods"; "jobs"]
          = MainBlocked
              [watchResource "pods" "default"; watchResource "jobs" "default"])
    as H by reflexivity.
  split; [exact H|].
  exact (proj1 (proj2 (main_starts_one_informer_each _ _ _ _ _ _ _ H))).
Defined.

End WatcherFacts.
